(** * DfuSe driver (src/dfuse.driver.ts): memory map, command codec,
      erase engine and write pipeline, as a shallow embedding.

    Numbers.  The driver computes on JavaScript numbers that hold device
    addresses and byte counts.  They are modelled as [Z] (integers in the
    exactly representable range); the only place where the source leaves
    the integers is a division by a zero [sectorSize], whose result
    ([Infinity] or [NaN], then multiplied by that zero) is always [NaN]:
    it is modelled by the constructor [NaN] of [number].

    Effects.  [this.write], [this.poll_until] and [this.poll_until_idle]
    belong to the base class (not part of this file of the driver); they
    are the fields of a [Transport] over an abstract device state.  Every
    call to them, and every log or progress call, is recorded in a trace. *)

From Stdlib Require Import ZArith List Bool Lia.
Import ListNotations.
Open Scope Z_scope.

(** ** Data model *)

(** [DFUseMemorySegment] (lines 6-14); [end] is a keyword, hence [end_]. *)
Record DFUseMemorySegment : Type := mkSegment {
  start : Z;
  end_ : Z;
  sectorSize : Z;
  readable : bool;
  erasable : bool;
  writable : bool
}.

(** [DFUseCommands] (lines 16-20). *)
Definition GET_COMMANDS : Z := 0x00.
Definition SET_ADDRESS : Z := 0x21.
Definition ERASE_SECTOR : Z := 0x41.

(** What the driver throws.  Each [WebDFUError] message of the source is a
    constructor; [RangeError] is the built-in exception of [ArrayBuffer] and
    [DataView]; [TransportError] stands for whatever the base class throws. *)
Inductive error : Type :=
| NoMemoryMapInformation              (* "No memory map information available" *)
| AddressOutsideMemoryMap (addr : Z)  (* "Address ... outside of memory map" *)
| UnknownSegment                      (* "Unknown segment" *)
| NoMemoryMapAvailable                (* "No memory map available" *)
| StartAddressNotFound                (* "startAddress not found" *)
| UnsupportedParamLength (len : Z)    (* "Don't know how to handle data of len ..." *)
| SpecialCommandError (command : Z) (inner : error)
                                      (* "Error during special DfuSe command ..." *)
| SpecialCommandFailed (command : Z)  (* "Special DfuSe command ... failed" *)
| DfuseWriteError (inner : error)     (* "Error during DfuSe write: ..." *)
| DfuWriteFailed (state status : Z)   (* "DFU WRITE failed state=..., status=..." *)
| ManifestationError (inner : error)  (* "Error during DfuSe manifestation: ..." *)
| RangeError
| TransportError (code : Z).

(** The result of a call: a value, an exception, or [Diverge] when a loop
    of the model has used up its fuel. *)
Inductive result (A : Type) : Type :=
| Ok (a : A)
| Throw (e : error)
| Diverge.
Arguments Ok {A} a.
Arguments Throw {A} e.
Arguments Diverge {A}.

(** A JavaScript number that is an integer, or [NaN]. *)
Inductive number : Type :=
| Num (z : Z)
| NaN.

(** [this.memoryInfo?.segments]: [None] when no memory map is loaded. *)
Definition memoryInfo : Type := option (list DFUseMemorySegment).

(** ** Memory map model (lines 34-109) *)

Definition contains (s : DFUseMemorySegment) (addr : Z) : bool :=
  (start s <=? addr) && (addr <? end_ s).

(** The [for ... of] loop of [getSegment] (lines 39-45). *)
Fixpoint findSegment (segments : list DFUseMemorySegment) (addr : Z)
  : option DFUseMemorySegment :=
  match segments with
  | [] => None
  | segment :: rest =>
      if contains segment addr then Some segment else findSegment rest addr
  end.

Definition getSegment (mi : memoryInfo) (addr : Z)
  : result (option DFUseMemorySegment) :=
  match mi with
  | None => Throw NoMemoryMapInformation
  | Some segments => Ok (findSegment segments addr)
  end.

(** The optional [segment] argument of [getSectorStart] and [getSectorEnd]:
    left out, [null], or a segment. *)
Inductive segmentArg : Type :=
| Undefined
| Null
| Segment (s : DFUseMemorySegment).

Definition ofOption (o : option DFUseMemorySegment) : segmentArg :=
  match o with
  | Some s => Segment s
  | None => Null
  end.

(** [Math.floor((addr - segment.start) / segment.sectorSize)]: a division
    by zero gives [Infinity] or [NaN]. *)
Definition sectorIndex (addr : Z) (segment : DFUseMemorySegment) : option Z :=
  if sectorSize segment =? 0 then None
  else Some ((addr - start segment) / sectorSize segment).

(** [segment.start + sectorIndex * segment.sectorSize] (lines 57-58). *)
Definition sectorStartOf (addr : Z) (segment : DFUseMemorySegment) : number :=
  match sectorIndex addr segment with
  | Some i => Num (start segment + i * sectorSize segment)
  | None => NaN
  end.

(** [segment.start + (sectorIndex + 1) * segment.sectorSize] (lines 66-67). *)
Definition sectorEndOf (addr : Z) (segment : DFUseMemorySegment) : number :=
  match sectorIndex addr segment with
  | Some i => Num (start segment + (i + 1) * sectorSize segment)
  | None => NaN
  end.

Definition getSectorStart (mi : memoryInfo) (addr : Z) (segment : segmentArg)
  : result number :=
  match segment with
  | Undefined =>
      match getSegment mi addr with
      | Ok (Some s) => Ok (sectorStartOf addr s)
      | Ok None => Throw (AddressOutsideMemoryMap addr)
      | Throw e => Throw e
      | Diverge => Diverge
      end
  | Null => Throw (AddressOutsideMemoryMap addr)
  | Segment s => Ok (sectorStartOf addr s)
  end.

(** The default value of [segment] is [this.getSegment(addr)]. *)
Definition getSectorEnd (mi : memoryInfo) (addr : Z) (segment : segmentArg)
  : result number :=
  match segment with
  | Undefined =>
      match getSegment mi addr with
      | Ok (Some s) => Ok (sectorEndOf addr s)
      | Ok None => Throw (AddressOutsideMemoryMap addr)
      | Throw e => Throw e
      | Diverge => Diverge
      end
  | Null => Throw (AddressOutsideMemoryMap addr)
  | Segment s => Ok (sectorEndOf addr s)
  end.

Definition getFirstWritableSegment (mi : memoryInfo)
  : result (option DFUseMemorySegment) :=
  match mi with
  | None => Throw NoMemoryMapInformation
  | Some segments => Ok (find writable segments)
  end.

(** The loop of [getMaxReadSize] (lines 89-108), with [numBytes] as an
    accumulator: [return 0] leaves the function, [break] leaves the loop. *)
Fixpoint maxReadLoop (segments : list DFUseMemorySegment) (startAddr numBytes : Z)
  : Z :=
  match segments with
  | [] => numBytes
  | segment :: rest =>
      if contains segment startAddr then
        if readable segment
        then maxReadLoop rest startAddr (numBytes + (end_ segment - startAddr))
        else 0
      else if start segment =? startAddr + numBytes then
        if readable segment
        then maxReadLoop rest startAddr (numBytes + (end_ segment - start segment))
        else numBytes
      else maxReadLoop rest startAddr numBytes
  end.

Definition getMaxReadSize (mi : memoryInfo) (startAddr : Z) : result Z :=
  match mi with
  | None => Throw NoMemoryMapInformation
  | Some segments => Ok (maxReadLoop segments startAddr 0)
  end.

(** ** Typed-array stores used by [dfuseCommand] (lines 250-256) *)

(** [ToUint32] and [ToUint8] of a number: [NaN] is stored as 0. *)
Definition toUint (bits : Z) (v : number) : Z :=
  match v with
  | Num z => z mod 2 ^ bits
  | NaN => 0
  end.

(** The largest length [new ArrayBuffer] accepts, 2^53 - 1 (an engine may
    refuse to allocate less; the driver asks for five bytes). *)
Definition maxByteLength : Z := 9007199254740991.

(** [new ArrayBuffer(n)]: [n] zero bytes; a [RangeError] for a negative [n]
    and for an [n] above [maxByteLength]. *)
Definition newArrayBuffer (n : Z) : result (list Z) :=
  if (n <? 0) || (maxByteLength <? n) then Throw RangeError
  else Ok (repeat 0 (Z.to_nat n)).

(** Overwrite the bytes of [buf] from offset [off] on with [bytes]. *)
Fixpoint store (buf : list Z) (off : nat) (bytes : list Z) : list Z :=
  match buf, off with
  | [], _ => []
  | b :: rest, S o => b :: store rest o bytes
  | b :: rest, O =>
      match bytes with
      | [] => buf
      | x :: more => x :: store rest O more
      end
  end.

(** [view.setUint8(off, v)]: a [RangeError] outside the buffer. *)
Definition setUint8 (buf : list Z) (off : Z) (v : number) : result (list Z) :=
  if (off <? 0) || (Z.of_nat (length buf) <? off + 1) then Throw RangeError
  else Ok (store buf (Z.to_nat off) [toUint 8 v]).

(** The four bytes of a 32-bit value, least significant first. *)
Definition le32 (w : Z) : list Z :=
  [Z.land w 255; Z.land (Z.shiftr w 8) 255;
   Z.land (Z.shiftr w 16) 255; Z.land (Z.shiftr w 24) 255].

(** [view.setUint32(off, v, true)]. *)
Definition setUint32LE (buf : list Z) (off : Z) (v : number) : result (list Z) :=
  if (off <? 0) || (Z.of_nat (length buf) <? off + 4) then Throw RangeError
  else Ok (store buf (Z.to_nat off) (le32 (toUint 32 v))).

(** The payload that [dfuseCommand] builds before it sends anything
    (lines 250-259). *)
Definition commandPayload (command : Z) (param : number) (len : Z)
  : result (list Z) :=
  match newArrayBuffer (len + 1) with
  | Ok payload =>
      match setUint8 payload 0 (Num command) with
      | Ok payload =>
          if len =? 1 then setUint8 payload 1 param
          else if len =? 4 then setUint32LE payload 1 param
          else Throw (UnsupportedParamLength len)
      | Throw e => Throw e
      | Diverge => Diverge
      end
  | Throw e => Throw e
  | Diverge => Diverge
  end.

(** [data.slice(begin, end)] of an [ArrayBuffer]: negative indices count
    from the end, and both are clamped to the buffer. *)
Definition clampIndex (len i : Z) : Z :=
  if i <? 0 then Z.max (len + i) 0 else Z.min i len.

Definition slice (data : list Z) (b e : Z) : list Z :=
  let len := Z.of_nat (length data) in
  let first := clampIndex len b in
  let final := clampIndex len e in
  firstn (Z.to_nat (Z.max (final - first) 0)) (skipn (Z.to_nat first) data).

(** ** Device, log and trace *)

Record DfuStatus : Type := mkStatus { state : Z; status : Z }.

(** The two predicates the driver passes to [poll_until]:
    [state != dfuDNBUSY] (line 267) and [state === dfuMANIFEST] (line 207). *)
Inductive pollPredicate : Type :=
| NotDnBusy
| IsManifest.

Inductive message : Type :=
| ErasingMemory                    (* "Erasing DFU device memory" *)
| CopyingData                      (* "Copying data from browser to DFU device" *)
| WroteBytes (n : Z)               (* "Wrote ... bytes" *)
| ManifestingFirmware              (* "Manifesting new firmware" *)
| InferredStartAddress (a : Z)     (* "Using inferred start address 0x..." *)
| StartAddressOutside (a : Z)      (* "Start address 0x... outside of memory map bounds" *)
| Caught (e : error).              (* logError(error), line 209 *)

Inductive event : Type :=
| DevWrite (payload : list Z) (blockIndex : Z)
| DevPollUntil (p : pollPredicate)
| DevPollUntilIdle
| LogInfo (m : message)
| LogWarning (m : message)
| LogError (m : message)
| LogProgress (done total : Z).

(** The base class, over a device state [D]: [write(payload, blockIndex)]
    answers the number of bytes written, the polls answer the last status;
    each returns ([inr]) or throws ([inl]).  [STATUS_OK] is the constant of
    [dfuCommands]. *)
Record Transport (D : Type) : Type := mkTransport {
  STATUS_OK : Z;
  write : list Z -> Z -> D -> (error + Z) * D;
  poll_until : pollPredicate -> D -> (error + DfuStatus) * D;
  poll_until_idle : D -> (error + DfuStatus) * D
}.
Arguments STATUS_OK {D} _.
Arguments write {D} _ _ _ _.
Arguments poll_until {D} _ _ _.
Arguments poll_until_idle {D} _ _.

Record world (D : Type) : Type := mkWorld { device : D; trace : list event }.
Arguments mkWorld {D} _ _.
Arguments device {D} _.
Arguments trace {D} _.

(** ** The monad of driver methods: state (device and trace) and exceptions *)

Definition M (D A : Type) : Type := world D -> result A * world D.

Definition ret {D A} (a : A) : M D A := fun w => (Ok a, w).
Definition throw {D A} (e : error) : M D A := fun w => (Throw e, w).
Definition diverge {D A} : M D A := fun w => (Diverge, w).

Definition bind {D A B} (m : M D A) (k : A -> M D B) : M D B :=
  fun w =>
    match m w with
    | (Ok a, w') => k a w'
    | (Throw e, w') => (Throw e, w')
    | (Diverge, w') => (Diverge, w')
    end.

(** [try { m } catch (error) { handler error }]. *)
Definition tryCatch {D A} (m : M D A) (handler : error -> M D A) : M D A :=
  fun w =>
    match m w with
    | (Throw e, w') => handler e w'
    | r => r
    end.

Definition lift {D A} (r : result A) : M D A := fun w => (r, w).

(** The outcome of a call to the base class. *)
Definition ofSum {A} (r : error + A) : result A :=
  match r with
  | inr a => Ok a
  | inl e => Throw e
  end.

Definition emit {D} (e : event) : M D unit :=
  fun w => (Ok tt, mkWorld (device w) (trace w ++ [e])).

Notation "x <- m ;; k" := (bind m (fun x => k))
  (at level 61, m at next level, right associativity).
Notation "m ;;; k" := (bind m (fun _ => k))
  (at level 61, right associativity).

(** ** The driver [DriverDFUse] *)

Section Driver.

Context {D : Type}.
Variable base : Transport D.
(** [this.memoryInfo] and [this.startAddress] ([None] is the [NaN] the
    field starts with, line 23). *)
Variable mi : memoryInfo.
Variable startAddress : option Z.

Definition baseWrite (payload : list Z) (blockIndex : Z) : M D Z :=
  fun w =>
    let (r, d) := write base payload blockIndex (device w) in
    (ofSum r, mkWorld d (trace w ++ [DevWrite payload blockIndex])).

Definition basePollUntil (p : pollPredicate) : M D DfuStatus :=
  fun w =>
    let (r, d) := poll_until base p (device w) in
    (ofSum r, mkWorld d (trace w ++ [DevPollUntil p])).

Definition basePollUntilIdle : M D DfuStatus :=
  fun w =>
    let (r, d) := poll_until_idle base (device w) in
    (ofSum r, mkWorld d (trace w ++ [DevPollUntilIdle])).

Definition logProgress (done total : Z) : M D unit := emit (LogProgress done total).

(** [dfuseCommand] (lines 243-272). *)
Definition dfuseCommand (command : Z) (param : number) (len : Z) : M D unit :=
  payload <- lift (commandPayload command param len) ;;
  tryCatch (baseWrite payload 0 ;;; ret tt)
           (fun error => throw (SpecialCommandError command error)) ;;;
  st <- basePollUntil NotDnBusy ;;
  if status st =? STATUS_OK base then ret tt
  else throw (SpecialCommandFailed command).

(** The variables of the loop of [erase]. *)
Record eraseState : Type := mkErase {
  er_segment : option DFUseMemorySegment;
  er_addr : number;
  er_bytesErased : Z
}.

(** [segment?.end ?? 0]. *)
Definition endOrZero (segment : option DFUseMemorySegment) : Z :=
  match segment with
  | Some s => end_ s
  | None => 0
  end.

(** One turn of the loop of [erase] (lines 127-144), entered with
    [addr < endAddr]. *)
Definition eraseIter (bytesToErase : Z) (segment : option DFUseMemorySegment)
    (addr bytesErased : Z) : M D eraseState :=
  segment <- (if endOrZero segment <=? addr
              then lift (getSegment mi addr) else ret segment) ;;
  match segment with
  | Some s =>
      if erasable s then
        let sectorAddr := sectorStartOf addr s in
        dfuseCommand ERASE_SECTOR sectorAddr 4 ;;;
        let bytesErased := bytesErased + sectorSize s in
        logProgress bytesErased bytesToErase ;;;
        ret (mkErase segment
               match sectorAddr with
               | Num a => Num (a + sectorSize s)
               | NaN => NaN
               end
               bytesErased)
      else
        let bytesErased := Z.min (bytesErased + end_ s - addr) bytesToErase in
        logProgress bytesErased bytesToErase ;;;
        ret (mkErase segment (Num (end_ s)) bytesErased)
  | None =>
      let bytesErased := Z.min (bytesErased + 0 - addr) bytesToErase in
      logProgress bytesErased bytesToErase ;;;
      ret (mkErase segment (Num 0) bytesErased)
  end.

(** [while (addr < endAddr)] (line 126); a comparison with [NaN] is false. *)
Fixpoint eraseLoop (fuel : nat) (endAddr bytesToErase : Z) (st : eraseState)
  : M D eraseState :=
  match er_addr st with
  | NaN => ret st
  | Num addr =>
      if addr <? endAddr then
        match fuel with
        | O => diverge
        | S fuel' =>
            st' <- eraseIter bytesToErase (er_segment st) addr (er_bytesErased st) ;;
            eraseLoop fuel' endAddr bytesToErase st'
        end
      else ret st
  end.

(** [erase] (lines 111-146).  With a [NaN] for [addr] or [endAddr] the
    comparisons of lines 122 and 126 are false. *)
Definition erase (fuel : nat) (startAddr length : Z) : M D unit :=
  segment <- lift (getSegment mi startAddr) ;;
  addr <- lift (getSectorStart mi startAddr (ofOption segment)) ;;
  endAddr <- lift (getSectorEnd mi (startAddr + length - 1) Undefined) ;;
  match segment with
  | None => throw UnknownSegment
  | Some _ =>
      match addr, endAddr with
      | Num addr, Num endAddr =>
          let bytesToErase := endAddr - addr in
          (if 0 <? bytesToErase then logProgress 0 bytesToErase else ret tt) ;;;
          eraseLoop fuel endAddr bytesToErase (mkErase segment (Num addr) 0) ;;;
          ret tt
      | _, _ => ret tt
      end
  end.

(** Lines 158-167 of [do_write]: the effective start address.
    [segments[0]?.start] is [undefined] for an empty map, and
    [!startAddress] holds for [undefined] and for 0. *)
Definition resolveStartAddress (segments : list DFUseMemorySegment) : M D Z :=
  match startAddress with
  | None =>
      match segments with
      | [] => throw StartAddressNotFound
      | s :: _ =>
          if start s =? 0 then throw StartAddressNotFound
          else emit (LogWarning (InferredStartAddress (start s))) ;;; ret (start s)
      end
  | Some a =>
      segment <- lift (getSegment mi a) ;;
      match segment with
      | None => emit (LogError (StartAddressOutside a)) ;;; ret a
      | Some _ => ret a
      end
  end.

(** One turn of the loop of [do_write] (lines 174-194); the state is
    [(bytes_sent, address)]. *)
Definition writeIter (xfer_size : Z) (data : list Z) (expected_size : Z)
    (bytes_sent address : Z) : M D (Z * Z) :=
  let bytes_left := expected_size - bytes_sent in
  let chunk_size := Z.min bytes_left xfer_size in
  r <- tryCatch
         (dfuseCommand SET_ADDRESS (Num address) 4 ;;;
          bytes_written <- baseWrite (slice data bytes_sent (bytes_sent + chunk_size)) 2 ;;
          dfu_status <- basePollUntilIdle ;;
          ret (bytes_written, dfu_status, address + chunk_size))
         (fun error => throw (DfuseWriteError error)) ;;
  let '(bytes_written, dfu_status, address) := r in
  if status dfu_status =? STATUS_OK base then
    let bytes_sent := bytes_sent + bytes_written in
    logProgress bytes_sent expected_size ;;;
    ret (bytes_sent, address)
  else throw (DfuWriteFailed (state dfu_status) (status dfu_status)).

(** [while (bytes_sent < expected_size)] (line 173). *)
Fixpoint writeLoop (fuel : nat) (xfer_size : Z) (data : list Z)
    (expected_size : Z) (bytes_sent address : Z) : M D (Z * Z) :=
  if bytes_sent <? expected_size then
    match fuel with
    | O => diverge
    | S fuel' =>
        st <- writeIter xfer_size data expected_size bytes_sent address ;;
        writeLoop fuel' xfer_size data expected_size (fst st) (snd st)
    end
  else ret (bytes_sent, address).

(** Lines 198-210 of [do_write]: manifestation and the last poll. *)
Definition manifest (startAddress : Z) : M D unit :=
  emit (LogInfo ManifestingFirmware) ;;;
  tryCatch
    (dfuseCommand SET_ADDRESS (Num startAddress) 4 ;;;
     baseWrite [] 0 ;;; ret tt)
    (fun error => throw (ManifestationError error)) ;;;
  tryCatch (basePollUntil IsManifest ;;; ret tt)
           (fun error => emit (LogError (Caught error))).

(** Lines 168-210 of [do_write]: erase, transfer and manifestation from
    the effective start address on. *)
Definition writeFrom (fuel : nat) (xfer_size : Z) (data : list Z)
    (startAddress : Z) : M D unit :=
  let expected_size := Z.of_nat (length data) in
  erase fuel startAddress expected_size ;;;
  emit (LogInfo CopyingData) ;;;
  st <- writeLoop fuel xfer_size data expected_size 0 startAddress ;;
  emit (LogInfo (WroteBytes (fst st))) ;;;
  manifest startAddress.

(** [do_write] (lines 148-211). *)
Definition do_write (fuel : nat) (xfer_size : Z) (data : list Z) : M D unit :=
  match mi with
  | None => throw NoMemoryMapAvailable
  | Some segments =>
      emit (LogInfo ErasingMemory) ;;;
      startAddress <- resolveStartAddress segments ;;
      writeFrom fuel xfer_size data startAddress
  end.

End Driver.

(** ** Well-formed memory maps *)

(** [addr] lies in the half-open range of [s]. *)
Definition inside (s : DFUseMemorySegment) (addr : Z) : Prop :=
  start s <= addr < end_ s.

Definition sortedByStart (segments : list DFUseMemorySegment) : Prop :=
  ForallOrdPairs (fun s t => start s <= start t) segments.

Definition nonOverlapping (segments : list DFUseMemorySegment) : Prop :=
  ForallOrdPairs (fun s t => forall a, ~ (inside s a /\ inside t a)) segments.

(** A device that accepts every byte and always reports status OK, for
    running the driver on concrete inputs. *)
Definition okStatus : DfuStatus := mkStatus 5 0.

Definition okTransport : Transport unit :=
  mkTransport unit 0
    (fun payload _ d => (inr (Z.of_nat (length payload)), d))
    (fun _ d => (inr okStatus, d))
    (fun d => (inr okStatus, d)).

Definition emptyWorld : world unit := mkWorld tt [].

(** The payloads of the [write] calls of a trace that carry the DfuSe
    command byte [command] at block index 0 and have five bytes, and all
    the [write] calls of a trace. *)
Definition isCommand (command : Z) (e : event) : bool :=
  match e with
  | DevWrite (c :: _ :: _ :: _ :: _ :: []) 0 => c =? command
  | _ => false
  end.

Definition isDevWrite (e : event) : bool :=
  match e with
  | DevWrite _ _ => true
  | _ => false
  end.

Definition deviceWrites (t : list event) : list event := filter isDevWrite t.

(** ** The words of the specification, for comparison with the code *)

(** Section 4.1, [getMaxReadSize]: after the segment that contains
    [startAddr], keep extending through the next segments while they begin
    at the cursor and are readable; stop at the first that is not. *)
Fixpoint extendRead (rest : list DFUseMemorySegment) (cursor : Z) : Z :=
  match rest with
  | [] => 0
  | s :: rest' =>
      if (start s =? cursor) && readable s
      then (end_ s - start s) + extendRead rest' (end_ s)
      else 0
  end.

(** Section 4.1, [getMaxReadSize]: find the segment containing [startAddr];
    0 if there is none or it is not readable, else its remaining bytes plus
    the extension. *)
Fixpoint maxReadSpec (segments : list DFUseMemorySegment) (startAddr : Z) : Z :=
  match segments with
  | [] => 0
  | s :: rest =>
      if contains s startAddr then
        if readable s then (end_ s - startAddr) + extendRead rest (end_ s) else 0
      else maxReadSpec rest startAddr
  end.

(** ** Sample memory maps *)

(** A read-only region of 1 KiB sectors followed by flash of 2 KiB sectors. *)
Definition bootSegment : DFUseMemorySegment :=
  mkSegment 0x1000 0x2000 0x400 true false false.
Definition flashSegment : DFUseMemorySegment :=
  mkSegment 0x2000 0x4000 0x800 true true true.
Definition sampleMap : list DFUseMemorySegment := [bootSegment; flashSegment].

(** No segment has [start >= end] (section 3 of the specification). *)
Definition nonEmpty (segments : list DFUseMemorySegment) : Prop :=
  Forall (fun s => start s < end_ s) segments.

(** A map in which a later entry continues an earlier one, as descriptors
    with several address areas give it. *)
Definition unsortedMap : list DFUseMemorySegment :=
  [mkSegment 0x1000 0x2000 0x400 true true true;
   mkSegment 0x8000 0x9000 0x400 true true true;
   mkSegment 0x2000 0x3000 0x400 true true true].

(** ** Expected device traffic *)

(** The [write] call of a four-byte DfuSe command: the command byte, then
    the parameter as an unsigned 32-bit value, least significant byte
    first, at block index 0. *)
Definition commandWrite (command addr : Z) : event :=
  DevWrite (command :: le32 (addr mod 2 ^ 32)) 0.

(** Bytes [i*C, min((i+1)*C, N)) of an image of [N] bytes. *)
Definition chunk (data : list Z) (C : Z) (i : nat) : list Z :=
  firstn (Z.to_nat C) (skipn (Z.to_nat (Z.of_nat i * C)) data).

(** The [i]-th SET_ADDRESS and data transfer of a write from [a]. *)
Definition transferPair (a C : Z) (data : list Z) (i : nat) : list event :=
  [commandWrite SET_ADDRESS (a + Z.of_nat i * C); DevWrite (chunk data C i) 2].

(** [ceil(N / C)]. *)
Definition chunkCount (N C : Z) : nat := Z.to_nat ((N + C - 1) / C).

(** ** Erasable sectors of an address range *)

(** The addresses [lo, lo+1, ..., hi-1]. *)
Definition addresses (lo hi : Z) : list Z :=
  map (fun i => lo + Z.of_nat i) (seq 0 (Z.to_nat (hi - lo))).

(** [x] is the first address of a sector of an erasable segment. *)
Definition isErasableSector (segments : list DFUseMemorySegment) (x : Z) : bool :=
  match findSegment segments x with
  | Some s => erasable s && ((x - start s) mod sectorSize s =? 0)
  | None => false
  end.

(** The sectors of erasable segments that begin in [lo, hi), in ascending
    order. *)
Definition erasableSectors (segments : list DFUseMemorySegment) (lo hi : Z)
  : list Z :=
  filter (isErasableSector segments) (addresses lo hi).

(** Every [sectorSize] is positive and divides the length of its segment
    (the descriptor contract of section 3 of the specification). *)
Definition sectorsDivide (segments : list DFUseMemorySegment) : Prop :=
  Forall (fun s => 0 < sectorSize s /\ (end_ s - start s) mod sectorSize s = 0)
         segments.

(** Every address of [lo, hi) lies in some segment. *)
Definition covered (segments : list DFUseMemorySegment) (lo hi : Z) : Prop :=
  forall x, lo <= x < hi -> exists s, In s segments /\ inside s x.

(** A map with a hole between its two segments. *)
Definition gapMap : list DFUseMemorySegment :=
  [mkSegment 0x1000 0x1800 0x400 true true true;
   mkSegment 0x2000 0x2800 0x400 true true true].

(** A map whose sector size does not divide the segment lengths. *)
Definition oddMap : list DFUseMemorySegment :=
  [mkSegment 0 10 4 true true true;
   mkSegment 10 20 4 true true true].

(** What holds of the segment and the address of the loop of [erase] at
    the head of each turn: [addr] is a sector boundary of [s], possibly its
    end, at or after the first address [addr0] of the span. *)
Definition eraseInv (segments : list DFUseMemorySegment) (addr0 : Z)
    (s : DFUseMemorySegment) (addr : Z) : Prop :=
  In s segments /\ start s <= addr <= end_ s /\
  (addr - start s) mod sectorSize s = 0 /\ addr0 <= addr.

(** A descriptor with a sector size of 0. *)
Definition zeroSectorMap : list DFUseMemorySegment :=
  [mkSegment 0x1000 0x2000 0 true true true].

(** ** Devices that misbehave, for running the driver on concrete inputs *)

(** [write] reports no byte written. *)
Definition zeroTransport : Transport unit :=
  mkTransport unit 0
    (fun _ _ d => (inr 0, d))
    (fun _ d => (inr okStatus, d))
    (fun d => (inr okStatus, d)).




(** Every [write] throws. *)
Definition deadTransport : Transport unit :=
  mkTransport unit 0
    (fun _ _ d => (inl (TransportError 2), d))
    (fun _ d => (inr okStatus, d))
    (fun d => (inr okStatus, d)).

(** [write] reports at most one byte written. *)
Definition shortTransport : Transport unit :=
  mkTransport unit 0
    (fun payload _ d => (inr (Z.min 1 (Z.of_nat (length payload))), d))
    (fun _ d => (inr okStatus, d))
    (fun d => (inr okStatus, d)).

(** ** The read pipeline [do_read] (lines 213-240) *)

(** What [do_read] throws: an exception of a call it makes, or one of its
    own two errors. *)
Inductive readError : Type :=
| Thrown (e : error)
| UnknownMemoryInfo          (* "Unknown a DfuSe memory info" *)
| UnknownMemorySegments.     (* "Unknown memory segments" *)

(** The result of [do_read]; [ReadDiverge] only relays a [Diverge] of the
    write-side monad. *)
Inductive readResult (A : Type) : Type :=
| Read (a : A)
| ReadThrow (e : readError)
| ReadDiverge.
Arguments Read {A} a.
Arguments ReadThrow {A} e.
Arguments ReadDiverge {A}.

(** The calls of [do_read] that the write pipeline does not make:
    [getState], [abortToIdle], [DriverDFU.prototype.do_read] and the log
    line "Reading up to ... bytes starting at ...".  [max_size] is [None]
    for its default, [Infinity]. *)
Inductive readCall : Type :=
| DevGetState
| DevAbortToIdle
| DevRead (xfer_size : Z) (max_size : option Z) (first_block : Z)
| LogReading (max_size : option Z) (startAddress : Z).

(** The base class as [do_read] uses it; [dfuIDLE] is the constant of
    [dfuCommands], [baseRead] is [DriverDFU.prototype.do_read]. *)
Record ReadTransport (D : Type) : Type := mkReadTransport {
  dfuIDLE : Z;
  getState : D -> (error + Z) * D;
  abortToIdle : D -> (error + unit) * D;
  baseRead : Z -> option Z -> Z -> D -> (error + list Z) * D
}.
Arguments dfuIDLE {D} _.
Arguments getState {D} _ _.
Arguments abortToIdle {D} _ _.
Arguments baseRead {D} _ _ _ _ _.

Record readWorld (D : Type) : Type :=
  mkReadWorld { rdevice : D; rtrace : list (event + readCall) }.
Arguments mkReadWorld {D} _ _.
Arguments rdevice {D} _.
Arguments rtrace {D} _.

Definition R (D A : Type) : Type := readWorld D -> readResult A * readWorld D.

Definition rret {D A} (a : A) : R D A := fun w => (Read a, w).
Definition rthrow {D A} (e : readError) : R D A := fun w => (ReadThrow e, w).

Definition rbind {D A B} (m : R D A) (k : A -> R D B) : R D B :=
  fun w =>
    match m w with
    | (Read a, w') => k a w'
    | (ReadThrow e, w') => (ReadThrow e, w')
    | (ReadDiverge, w') => (ReadDiverge, w')
    end.

Definition remit {D} (e : event + readCall) : R D unit :=
  fun w => (Read tt, mkReadWorld (rdevice w) (rtrace w ++ [e])).

(** A call to the base class, recorded as [c]. *)
Definition rcall {D A} (c : readCall) (f : D -> (error + A) * D) : R D A :=
  fun w =>
    let (r, d) := f (rdevice w) in
    (match r with
     | inr a => Read a
     | inl e => ReadThrow (Thrown e)
     end,
     mkReadWorld d (rtrace w ++ [inr c])).

(** A method of the write side, run on the device of the read world; its
    trace is appended. *)
Definition liftWrite {D A} (m : M D A) : R D A :=
  fun w =>
    let (r, w') := m (mkWorld (rdevice w) []) in
    (match r with
     | Ok a => Read a
     | Throw e => ReadThrow (Thrown e)
     | Diverge => ReadDiverge
     end,
     mkReadWorld (device w') (rtrace w ++ map inl (trace w'))).

Section ReadDriver.

Context {D : Type}.
Variable base : Transport D.
Variable reader : ReadTransport D.
Variable mi : memoryInfo.
Variable startAddress : option Z.

(** Lines 218-227: as in [do_write], but the error for an empty map or a
    first segment at 0 is "Unknown memory segments", and an override
    outside the map is a warning. *)
Definition resolveReadAddress (segments : list DFUseMemorySegment) : R D Z :=
  match startAddress with
  | None =>
      match segments with
      | [] => rthrow UnknownMemorySegments
      | s :: _ =>
          if start s =? 0 then rthrow UnknownMemorySegments
          else rbind (remit (inl (LogWarning (InferredStartAddress (start s)))))
                     (fun _ => rret (start s))
      end
  | Some a =>
      rbind (liftWrite (lift (getSegment mi a)))
            (fun segment =>
               match segment with
               | None => rbind (remit (inl (LogWarning (StartAddressOutside a))))
                               (fun _ => rret a)
               | Some _ => rret a
               end)
  end.

(** [do_read] (lines 213-240). *)
Definition do_read (xfer_size : Z) (max_size : option Z) : R D (list Z) :=
  match mi with
  | None => rthrow UnknownMemoryInfo
  | Some segments =>
      rbind (resolveReadAddress segments) (fun startAddress =>
      rbind (remit (inr (LogReading max_size startAddress))) (fun _ =>
      rbind (rcall DevGetState (getState reader)) (fun state =>
      rbind (if state =? dfuIDLE reader then rret tt
             else rcall DevAbortToIdle (abortToIdle reader)) (fun _ =>
      rbind (liftWrite (dfuseCommand base SET_ADDRESS (Num startAddress) 4)) (fun _ =>
      rbind (rcall DevAbortToIdle (abortToIdle reader)) (fun _ =>
      rcall (DevRead xfer_size max_size 2)
            (baseRead reader xfer_size max_size 2)))))))
  end.

End ReadDriver.

(** A reader that is busy at first and then returns four bytes. *)
Definition sampleReader : ReadTransport unit :=
  mkReadTransport unit 2
    (fun d => (inr 5, d))
    (fun d => (inr tt, d))
    (fun _ _ _ d => (inr [0xde; 0xad; 0xbe; 0xef], d)).

Definition emptyReadWorld : readWorld unit := mkReadWorld tt [].


(** ** Segment lookup *)

Lemma contains_inside (s : DFUseMemorySegment) (a : Z) :
  contains s a = true <-> inside s a.
Proof.
  unfold contains, inside.
  rewrite andb_true_iff, Z.leb_le, Z.ltb_lt. tauto.
Qed.

Lemma contains_outside (s : DFUseMemorySegment) (a : Z) :
  contains s a = false <-> ~ inside s a.
Proof.
  rewrite <- contains_inside. destruct (contains s a); split; congruence.
Qed.

Lemma findSegment_Some segments a s :
  findSegment segments a = Some s -> In s segments /\ inside s a.
Proof.
  induction segments as [|t rest IH]; simpl; [discriminate|].
  destruct (contains t a) eqn:E.
  - intros [= <-]. split; [now left | now apply contains_inside].
  - intros H. destruct (IH H). split; [now right | assumption].
Qed.

Lemma findSegment_None segments a :
  findSegment segments a = None <-> (forall s, In s segments -> ~ inside s a).
Proof.
  induction segments as [|t rest IH]; simpl.
  - split; [intros _ s [] | reflexivity].
  - destruct (contains t a) eqn:E.
    + split; [discriminate|]. intros H. exfalso.
      apply (H t); [now left | now apply contains_inside].
    + rewrite IH. split.
      * intros H s [<-|Hs]; [now apply contains_outside | now apply H].
      * intros H s Hs. apply H. now right.
Qed.

Lemma findSegment_unique segments a s :
  nonOverlapping segments -> In s segments -> inside s a ->
  findSegment segments a = Some s.
Proof.
  intros Hno. induction Hno as [|t rest Ht Hrest IH]; simpl; [intros []|].
  intros [<-|Hin] Ha.
  - apply contains_inside in Ha. now rewrite Ha.
  - destruct (contains t a) eqn:E; [|now apply IH].
    exfalso. apply contains_inside in E.
    rewrite Forall_forall in Ht. apply (Ht s Hin a). now split.
Qed.

(** C5: with a loaded map whose segments are sorted by start and do not
    overlap, [getSegment a] is the segment [s] with [start s <= a < end_ s]
    when [a] lies in some segment and [null] when it lies in none; without
    a memory map it throws the no-memory-map error for every [a]. *)
Theorem getSegment_correct (segments : list DFUseMemorySegment) (a : Z) :
  sortedByStart segments -> nonOverlapping segments ->
  (forall s, In s segments -> inside s a ->
             getSegment (Some segments) a = Ok (Some s)) /\
  ((forall s, In s segments -> ~ inside s a) ->
   getSegment (Some segments) a = Ok None) /\
  getSegment None a = Throw NoMemoryMapInformation.
Proof.
  intros _ Hno. repeat split.
  - intros s Hin Ha. simpl. f_equal. now apply findSegment_unique.
  - intros Hout. simpl. f_equal. now apply findSegment_None.
Qed.

(** ** Sector arithmetic *)

Lemma sectorStartOf_bounds (s : DFUseMemorySegment) (a : Z) :
  0 < sectorSize s ->
  exists x, sectorStartOf a s = Num x /\ x <= a < x + sectorSize s /\
            sectorEndOf a s = Num (x + sectorSize s) /\
            ((a - start s) mod sectorSize s = 0 -> x = a).
Proof.
  intros Hpos. unfold sectorStartOf, sectorEndOf, sectorIndex.
  destruct (Z.eqb_spec (sectorSize s) 0) as [E|_]; [lia|].
  eexists. split; [reflexivity|].
  pose proof (Z.div_mod (a - start s) (sectorSize s) ltac:(lia)) as Hdm.
  pose proof (Z.mod_pos_bound (a - start s) (sectorSize s) Hpos) as Hb.
  repeat split; try nia.
  f_equal. ring.
Qed.

(** C8 (amended): for every address [a] inside some segment of a loaded map
    whose segments have a positive [sectorSize], [getSectorStart a <= a <
    getSectorStart a + sectorSize] and [getSectorEnd a = getSectorStart a +
    sectorSize], where [sectorSize] is that of the segment [getSegment a]
    finds; when [a] is on a sector boundary [getSectorEnd a] is
    [a + sectorSize]. *)
Theorem sector_bounds (segments : list DFUseMemorySegment) (a : Z) :
  (exists s0, In s0 segments /\ inside s0 a) ->
  (forall s, In s segments -> 0 < sectorSize s) ->
  exists s x,
    getSegment (Some segments) a = Ok (Some s) /\
    getSectorStart (Some segments) a Undefined = Ok (Num x) /\
    x <= a < x + sectorSize s /\
    getSectorEnd (Some segments) a Undefined = Ok (Num (x + sectorSize s)) /\
    ((a - start s) mod sectorSize s = 0 ->
     getSectorEnd (Some segments) a Undefined = Ok (Num (a + sectorSize s))).
Proof.
  intros [s0 [Hin Ha]] Hpos.
  destruct (findSegment segments a) as [s|] eqn:E.
  - destruct (findSegment_Some _ _ _ E) as [Hs _].
    destruct (sectorStartOf_bounds s a (Hpos s Hs)) as [x [Hx [Hb [He Hal]]]].
    exists s, x. simpl. rewrite E, Hx, He.
    repeat split; try lia. intros H0. now rewrite (Hal H0).
  - exfalso. apply (proj1 (findSegment_None segments a) E s0 Hin Ha).
Qed.

(** ** Errors of [erase] before its loop *)

Section EraseErrors.

Context {D : Type}.
Variable base : Transport D.

Lemma erase_outside_map_aux (segments : list DFUseMemorySegment)
    (fuel : nat) (startAddr length : Z) (w : world D) :
  findSegment segments startAddr = None ->
  erase base (Some segments) fuel startAddr length w
  = (Throw (AddressOutsideMemoryMap startAddr), w).
Proof.
  intros Hout. unfold erase, bind, lift. simpl. now rewrite Hout.
Qed.

(** C9 (amended): when [startAddr] lies in no segment, [erase] throws the
    address-outside-of-memory-map error of [getSectorStart] (line 113),
    which runs before the unknown-segment test of line 116; nothing is sent
    to the device and nothing is logged. *)
Theorem erase_outside_map (segments : list DFUseMemorySegment)
    (fuel : nat) (startAddr length : Z) (w : world D) :
  (forall s, In s segments -> ~ inside s startAddr) ->
  erase base (Some segments) fuel startAddr length w
  = (Throw (AddressOutsideMemoryMap startAddr), w) /\
  fst (erase base (Some segments) fuel startAddr length w) <> Throw UnknownSegment.
Proof.
  intros Hout. apply findSegment_None in Hout.
  rewrite erase_outside_map_aux by assumption. split; [reflexivity|discriminate].
Qed.

Lemma erase_zero_throws (segments : list DFUseMemorySegment)
    (fuel : nat) (startAddr : Z) (w : world D) :
  findSegment segments (startAddr - 1) = None ->
  exists a, erase base (Some segments) fuel startAddr 0 w
            = (Throw (AddressOutsideMemoryMap a), w).
Proof.
  intros Hout. unfold erase, bind, lift. simpl.
  destruct (findSegment segments startAddr) as [s|]; simpl.
  - replace (startAddr + 0 - 1) with (startAddr - 1) by lia.
    rewrite Hout. now eexists.
  - now eexists.
Qed.

Lemma first_segment_predecessor (s : DFUseMemorySegment)
    (rest : list DFUseMemorySegment) :
  sortedByStart (s :: rest) -> findSegment (s :: rest) (start s - 1) = None.
Proof.
  intros Hs. apply findSegment_None. intros t Ht. unfold inside.
  inversion Hs as [|? ? Hall _]; subst.
  destruct Ht as [<-|Ht]; [lia|].
  rewrite Forall_forall in Hall. specialize (Hall t Ht). lia.
Qed.

(** C10: [erase] takes its range end from the address [startAddr + length
    - 1], so [erase startAddr 0] throws the address-out-of-range error as
    soon as [startAddr - 1] lies outside every segment, which holds at the
    first byte of the first segment of a sorted map; and [do_write] of an
    empty image then throws, with nothing sent to the device, whatever the
    start-address override is. *)
Theorem erase_empty_range_throws (segments : list DFUseMemorySegment)
    (fuel : nat) (startAddr : Z) (w : world D) :
  findSegment segments (startAddr - 1) = None ->
  (exists a, erase base (Some segments) fuel startAddr 0 w
             = (Throw (AddressOutsideMemoryMap a), w)) /\
  (forall s rest, segments = s :: rest -> sortedByStart segments ->
                  findSegment segments (start s - 1) = None) /\
  (forall xfer_size,
      exists e, fst (do_write base (Some segments) (Some startAddr)
                       fuel xfer_size [] w) = Throw e /\
                deviceWrites (trace (snd (do_write base (Some segments)
                       (Some startAddr) fuel xfer_size [] w)))
                = deviceWrites (trace w)) /\
  (forall xfer_size s rest,
      segments = s :: rest -> start s = startAddr ->
      exists e, fst (do_write base (Some segments) None
                       fuel xfer_size [] w) = Throw e /\
                deviceWrites (trace (snd (do_write base (Some segments)
                       None fuel xfer_size [] w)))
                = deviceWrites (trace w)).
Proof.
  intros Hout. split; [now apply erase_zero_throws|].
  split; [intros s rest -> Hs; now apply first_segment_predecessor|].
  split.
  - intros xfer_size.
    unfold do_write, writeFrom, resolveStartAddress, bind, emit, lift. simpl.
    destruct (findSegment segments startAddr) as [s|] eqn:E; simpl.
    + destruct (erase_zero_throws segments fuel startAddr
                  (mkWorld (device w) (trace w ++ [LogInfo ErasingMemory])) Hout)
        as [a Ha].
      rewrite Ha. simpl. eexists. split; [reflexivity|].
      unfold deviceWrites. rewrite filter_app. simpl. now rewrite app_nil_r.
    + destruct (erase_zero_throws segments fuel startAddr
                  (mkWorld (device w)
                     ((trace w ++ [LogInfo ErasingMemory])
                      ++ [LogError (StartAddressOutside startAddr)])) Hout)
        as [a Ha].
      rewrite Ha. simpl. eexists. split; [reflexivity|].
      unfold deviceWrites. rewrite !filter_app. simpl. now rewrite !app_nil_r.
  - intros xfer_size s rest -> Hstart.
    unfold do_write, writeFrom, resolveStartAddress, bind, emit, throw. simpl.
    destruct (Z.eqb_spec (start s) 0) as [E0|E0]; simpl.
    + eexists. split; [reflexivity|].
      unfold deviceWrites. rewrite filter_app. simpl. now rewrite app_nil_r.
    + rewrite Hstart.
      destruct (erase_zero_throws (s :: rest) fuel startAddr
                  (mkWorld (device w)
                     ((trace w ++ [LogInfo ErasingMemory])
                      ++ [LogWarning (InferredStartAddress startAddr)])) Hout)
        as [a Ha].
      rewrite Ha. simpl. eexists. split; [reflexivity|].
      unfold deviceWrites. rewrite !filter_app. simpl. now rewrite !app_nil_r.
Qed.

End EraseErrors.

(** ** Command codec *)

Lemma le32_value (v : Z) :
  0 <= v < 2 ^ 32 ->
  exists b0 b1 b2 b3,
    le32 v = [b0; b1; b2; b3] /\
    (0 <= b0 < 256 /\ 0 <= b1 < 256 /\ 0 <= b2 < 256 /\ 0 <= b3 < 256) /\
    b0 + 256 * b1 + 65536 * b2 + 16777216 * b3 = v.
Proof.
  intros Hv. unfold le32. do 4 eexists. split; [reflexivity|].
  change 255 with (Z.ones 8).
  rewrite !Z.land_ones, !Z.shiftr_div_pow2 by lia.
  change (2 ^ 8) with 256. change (2 ^ 16) with 65536.
  change (2 ^ 24) with 16777216. change (2 ^ 32) with 4294967296 in Hv.
  pose proof (Z.mod_pos_bound v 256 ltac:(lia)).
  pose proof (Z.mod_pos_bound (v / 256) 256 ltac:(lia)).
  pose proof (Z.mod_pos_bound (v / 65536) 256 ltac:(lia)).
  pose proof (Z.mod_pos_bound (v / 16777216) 256 ltac:(lia)).
  split; [lia|].
  pose proof (Z.div_mod v 256 ltac:(lia)).
  pose proof (Z.div_mod (v / 256) 256 ltac:(lia)).
  pose proof (Z.div_mod (v / 65536) 256 ltac:(lia)).
  pose proof (Z.div_mod (v / 16777216) 256 ltac:(lia)).
  assert (v / 256 / 256 = v / 65536) by (rewrite Z.div_div by lia; reflexivity).
  assert (v / 65536 / 256 = v / 16777216) by (rewrite Z.div_div by lia; reflexivity).
  assert (v / 16777216 / 256 = 0).
  { rewrite Z.div_div by lia. apply Z.div_small. lia. }
  lia.
Qed.

Lemma newArrayBuffer_Ok (n : Z) :
  0 <= n <= maxByteLength -> newArrayBuffer n = Ok (repeat 0 (Z.to_nat n)).
Proof.
  intros Hn. unfold newArrayBuffer.
  destruct (Z.ltb_spec n 0); [lia|].
  destruct (Z.ltb_spec maxByteLength n); [lia|]. reflexivity.
Qed.

Lemma newArrayBuffer_RangeError (n : Z) :
  n < 0 \/ maxByteLength < n -> newArrayBuffer n = Throw RangeError.
Proof.
  intros Hn. unfold newArrayBuffer.
  destruct (Z.ltb_spec n 0); [reflexivity|].
  destruct (Z.ltb_spec maxByteLength n); [reflexivity|lia].
Qed.

Lemma commandPayload_one (c : Z) (p : number) :
  commandPayload c p 1 = Ok [toUint 8 (Num c); toUint 8 p].
Proof. reflexivity. Qed.

Lemma commandPayload_four (c : Z) (p : number) :
  commandPayload c p 4 = Ok (toUint 8 (Num c) :: le32 (toUint 32 p)).
Proof. reflexivity. Qed.

(** Outside 1 and 4: a [RangeError] when the buffer cannot hold the command
    byte, the unsupported-length error otherwise. *)
Lemma commandPayload_other (c : Z) (p : number) (len : Z) :
  len <> 1 -> len <> 4 ->
  commandPayload c p len
  = if (len <? 0) || (maxByteLength <? len + 1) then Throw RangeError
    else Throw (UnsupportedParamLength len).
Proof.
  intros H1 H4. unfold commandPayload.
  destruct (Z.ltb_spec len 0) as [Hneg|Hpos]; cbn [orb].
  - destruct (Z.eq_dec len (-1)) as [->|Hm]; [reflexivity|].
    now rewrite newArrayBuffer_RangeError by lia.
  - destruct (Z.ltb_spec maxByteLength (len + 1)) as [Hbig|Hfit].
    + now rewrite newArrayBuffer_RangeError by lia.
    + rewrite newArrayBuffer_Ok by (unfold maxByteLength in *; lia).
      unfold setUint8 at 1. rewrite repeat_length, Z2Nat.id by lia.
      destruct (Z.ltb_spec 0 0); [lia|].
      destruct (Z.ltb_spec (len + 1) (0 + 1)); [lia|]. cbn [orb].
      destruct (Z.eqb_spec len 1); [lia|].
      destruct (Z.eqb_spec len 4); [lia|]. reflexivity.
Qed.

Lemma commandPayload_length (c : Z) (p : number) (len : Z) (payload : list Z) :
  commandPayload c p len = Ok payload ->
  (len = 1 \/ len = 4) /\ Z.of_nat (length payload) = len + 1.
Proof.
  destruct (Z.eq_dec len 1) as [->|H1].
  - rewrite commandPayload_one. intros [= <-]. split; [now left|reflexivity].
  - destruct (Z.eq_dec len 4) as [->|H4].
    + rewrite commandPayload_four. intros [= <-]. split; [now right|reflexivity].
    + rewrite (commandPayload_other c p len H1 H4).
      destruct ((len <? 0) || (maxByteLength <? len + 1)); discriminate.
Qed.

(** C4 (amended): for a command byte [c] and a parameter [p],
    [dfuseCommand] builds a payload of [len + 1] bytes whose byte 0 is [c],
    followed by [p] as one byte when [len = 1] and by the four bytes of [p],
    least significant first, when [len = 4], and sends it with [write] at
    block index 0.  For every other [len] it throws before anything is
    sent: the unsupported-parameter-length error when [len >= 0] and the
    buffer of [len + 1] bytes exists ([len + 1 <= 2^53 - 1]), and a
    [RangeError], from the allocation of the buffer or from the store of
    the command byte, when [len] is negative or [len + 1] is above
    [2^53 - 1]. *)
Theorem dfuseCommand_payload {D : Type} (base : Transport D)
    (c p len : Z) (w : world D) :
  0 <= c < 256 ->
  (len = 1 -> commandPayload c (Num p) len = Ok [c; p mod 256]) /\
  (len = 4 ->
   exists b0 b1 b2 b3,
     commandPayload c (Num p) len = Ok [c; b0; b1; b2; b3] /\
     (0 <= b0 < 256 /\ 0 <= b1 < 256 /\ 0 <= b2 < 256 /\ 0 <= b3 < 256) /\
     b0 + 256 * b1 + 65536 * b2 + 16777216 * b3 = p mod 2 ^ 32) /\
  (forall payload,
     commandPayload c (Num p) len = Ok payload ->
     Z.of_nat (length payload) = len + 1 /\
     exists rest, trace (snd (dfuseCommand base c (Num p) len w))
                  = trace w ++ DevWrite payload 0 :: rest) /\
  (0 <= len -> len + 1 <= maxByteLength -> len <> 1 -> len <> 4 ->
   dfuseCommand base c (Num p) len w = (Throw (UnsupportedParamLength len), w)) /\
  (len < 0 \/ maxByteLength < len + 1 ->
   dfuseCommand base c (Num p) len w = (Throw RangeError, w)).
Proof.
  intros Hc.
  assert (Hcm : c mod 2 ^ 8 = c) by (apply Z.mod_small; simpl; lia).
  split; [|split; [|split; [|split]]].
  - intros ->. rewrite commandPayload_one. unfold toUint. now rewrite Hcm.
  - intros ->.
    destruct (le32_value (p mod 2 ^ 32)) as [b0 [b1 [b2 [b3 [E [Hb Hs]]]]]].
    { apply Z.mod_pos_bound. lia. }
    exists b0, b1, b2, b3. split; [|split; assumption].
    rewrite commandPayload_four. unfold toUint. now rewrite Hcm, E.
  - intros payload H. split; [now apply commandPayload_length in H|].
    unfold dfuseCommand, bind, lift, tryCatch, baseWrite, basePollUntil.
    rewrite H. simpl.
    destruct (write base payload 0 (device w)) as [[e|n] d]; simpl.
    + eexists; reflexivity.
    + destruct (poll_until base NotDnBusy d) as [[e|st] d']; simpl;
        [|destruct (status st =? STATUS_OK base)]; simpl;
        rewrite <- app_assoc; eexists; reflexivity.
  - intros H0 Hmax H1 H4. unfold dfuseCommand, bind, lift.
    rewrite (commandPayload_other c (Num p) len H1 H4).
    destruct (Z.ltb_spec len 0); [lia|].
    destruct (Z.ltb_spec maxByteLength (len + 1)); [lia|]. reflexivity.
  - intros Hlen.
    assert (H1 : len <> 1) by (unfold maxByteLength in Hlen; lia).
    assert (H4 : len <> 4) by (unfold maxByteLength in Hlen; lia).
    unfold dfuseCommand, bind, lift.
    rewrite (commandPayload_other c (Num p) len H1 H4).
    destruct (Z.ltb_spec len 0) as [|Hpos]; [reflexivity|].
    destruct (Z.ltb_spec maxByteLength (len + 1)); [reflexivity|lia].
Qed.

(** ** Readable span *)

(** In a sorted map without overlaps or empty segments, every segment
    after [p] begins at or after the end of [p]. *)
Lemma later_segments_start (p : DFUseMemorySegment)
    (rest : list DFUseMemorySegment) :
  sortedByStart (p :: rest) -> nonOverlapping (p :: rest) ->
  nonEmpty (p :: rest) ->
  Forall (fun t => end_ p <= start t) rest.
Proof.
  intros Hs Hno Hne.
  inversion Hs as [|? ? Hsp _]; inversion Hno as [|? ? Hnp _];
    inversion Hne as [|? ? Hp Hrest]; subst.
  rewrite Forall_forall in *. intros t Ht.
  specialize (Hsp t Ht). specialize (Hnp t Ht (start t)).
  specialize (Hrest t Ht). cbv beta in *. unfold inside in Hnp. lia.
Qed.

(** Past the cursor nothing is added any more. *)
Lemma maxReadLoop_beyond (l : list DFUseMemorySegment) (a n : Z) :
  0 <= n -> Forall (fun t => a + n < start t) l -> maxReadLoop l a n = n.
Proof.
  intros Hn Hall. induction Hall as [|t l Ht _ IH]; simpl; [reflexivity|].
  unfold contains.
  destruct (Z.leb_spec (start t) a); [lia|]. simpl.
  destruct (Z.eqb_spec (start t) (a + n)); [lia|]. assumption.
Qed.

Lemma maxReadLoop_extend (l : list DFUseMemorySegment) (a n : Z) :
  0 < n -> sortedByStart l -> nonOverlapping l -> nonEmpty l ->
  Forall (fun t => a + n <= start t) l ->
  maxReadLoop l a n = n + extendRead l (a + n).
Proof.
  revert n. induction l as [|t l IH]; intros n Hn Hs Hno Hne Hlow; simpl; [lia|].
  pose proof (later_segments_start t l Hs Hno Hne) as Hafter.
  inversion Hs; inversion Hno; inversion Hne; inversion Hlow; subst.
  cbv beta in *. unfold contains.
  destruct (Z.leb_spec (start t) a); [lia|]. simpl.
  destruct (Z.eqb_spec (start t) (a + n)) as [E|E]; simpl.
  - destruct (readable t); [|lia].
    rewrite IH; try assumption; try lia.
    + replace (a + (n + (end_ t - start t))) with (end_ t) by lia. lia.
    + replace (a + (n + (end_ t - start t))) with (end_ t) by lia. assumption.
  - rewrite maxReadLoop_beyond; [lia|lia|].
    rewrite Forall_forall in *. intros u Hu.
    match goal with Hord : forall x, In x l -> start t <= start x |- _ =>
      specialize (Hord u Hu) end. lia.
Qed.

Lemma maxReadLoop_spec (l : list DFUseMemorySegment) (a : Z) :
  sortedByStart l -> nonOverlapping l -> nonEmpty l ->
  maxReadLoop l a 0 = maxReadSpec l a.
Proof.
  induction l as [|t l IH]; intros Hs Hno Hne; simpl; [reflexivity|].
  pose proof (later_segments_start t l Hs Hno Hne) as Hafter.
  inversion Hs; inversion Hno; inversion Hne; subst. cbv beta in *.
  destruct (contains t a) eqn:E.
  - destruct (readable t); [|reflexivity].
    apply contains_inside in E. unfold inside in E.
    rewrite maxReadLoop_extend; try assumption; try lia.
    + replace (a + (end_ t - a)) with (end_ t) by lia. lia.
    + replace (a + (end_ t - a)) with (end_ t) by lia. assumption.
  - apply contains_outside in E. unfold inside in E.
    destruct (Z.eqb_spec (start t) (a + 0)); [lia|]. now apply IH.
Qed.

(** C6 (amended): with a loaded map whose segments are sorted by start, do
    not overlap and are not empty, [getMaxReadSize startAddr] is 0 when the
    segment containing [startAddr] is not readable or when there is none,
    and otherwise the remaining bytes of that segment plus the lengths of
    the following segments, as long as each begins at [startAddr] plus the
    bytes counted so far and is readable; it never throws. *)
Theorem getMaxReadSize_spec (segments : list DFUseMemorySegment) (startAddr : Z) :
  sortedByStart segments -> nonOverlapping segments -> nonEmpty segments ->
  getMaxReadSize (Some segments) startAddr = Ok (maxReadSpec segments startAddr) /\
  (forall s, findSegment segments startAddr = Some s -> readable s = false ->
             getMaxReadSize (Some segments) startAddr = Ok 0) /\
  (findSegment segments startAddr = None ->
   getMaxReadSize (Some segments) startAddr = Ok 0).
Proof.
  intros Hs Hno Hne.
  assert (E : getMaxReadSize (Some segments) startAddr
              = Ok (maxReadSpec segments startAddr)).
  { simpl. f_equal. now apply maxReadLoop_spec. }
  rewrite E. repeat split.
  - intros s Hf Hr. f_equal. clear -Hf Hr.
    induction segments as [|t l IH]; simpl in *; [discriminate|].
    destruct (contains t startAddr).
    + injection Hf as ->. now rewrite Hr.
    + now apply IH.
  - intros Hf. f_equal. clear -Hf.
    induction segments as [|t l IH]; simpl in *; [reflexivity|].
    destruct (contains t startAddr); [discriminate|]. now apply IH.
Qed.

(** C6, as stated, fails on a map that is not sorted: the loop does not
    stop at a segment that is not contiguous, it goes on and adds a later
    entry that continues the run. *)
Lemma getMaxReadSize_unsorted_counterexample :
  getMaxReadSize (Some unsortedMap) 0x1000 = Ok 0x2000 /\
  maxReadSpec unsortedMap 0x1000 = 0x1000 /\
  ~ (forall segments startAddr,
        getMaxReadSize (Some segments) startAddr
        = Ok (maxReadSpec segments startAddr)).
Proof.
  split; [reflexivity|]. split; [reflexivity|].
  intros H. specialize (H unsortedMap 0x1000). discriminate H.
Qed.

(** ** Start address of [do_write] *)

(** C7 (amended): with the override set to [a], [do_write] works at [a];
    when [a] lies in no segment the error is logged and [erase] is still
    called at [a], where it throws the address-outside-of-memory-map error
    before anything is sent to the device, so nothing is written.  With the
    override unset and a first segment whose start is not 0, [do_write]
    logs the warning and works at that start. *)
Theorem do_write_start_address {D : Type} (base : Transport D)
    (segments : list DFUseMemorySegment) (fuel : nat) (xfer_size : Z)
    (data : list Z) (w : world D) :
  (forall a s, findSegment segments a = Some s ->
     do_write base (Some segments) (Some a) fuel xfer_size data w
     = (emit (LogInfo ErasingMemory) ;;;
        writeFrom base (Some segments) fuel xfer_size data a) w) /\
  (forall a, findSegment segments a = None ->
     do_write base (Some segments) (Some a) fuel xfer_size data w
     = (Throw (AddressOutsideMemoryMap a),
        mkWorld (device w)
          (trace w ++ [LogInfo ErasingMemory; LogError (StartAddressOutside a)]))) /\
  (forall s rest, segments = s :: rest -> start s <> 0 ->
     do_write base (Some segments) None fuel xfer_size data w
     = (emit (LogInfo ErasingMemory) ;;;
        emit (LogWarning (InferredStartAddress (start s))) ;;;
        writeFrom base (Some segments) fuel xfer_size data (start s)) w).
Proof.
  repeat split.
  - intros a s Hf. unfold do_write, resolveStartAddress, bind, lift, emit, ret.
    simpl. now rewrite Hf.
  - intros a Hf.
    unfold do_write, resolveStartAddress, writeFrom, bind, lift, emit, ret.
    simpl. rewrite Hf. simpl.
    rewrite erase_outside_map_aux by assumption.
    now rewrite <- app_assoc.
  - intros s rest -> Hs.
    unfold do_write, resolveStartAddress, bind, lift, emit, ret. simpl.
    destruct (Z.eqb_spec (start s) 0); [contradiction|]. reflexivity.
Qed.

(** C7, as stated, fails: with an override outside the map, [do_write]
    does not go on to write; [erase] throws and the device sees nothing. *)
Lemma do_write_outside_counterexample :
  do_write okTransport (Some sampleMap) (Some 0x10) 8 4 [1; 2; 3] emptyWorld
  = (Throw (AddressOutsideMemoryMap 0x10),
     mkWorld tt [LogInfo ErasingMemory; LogError (StartAddressOutside 0x10)]) /\
  deviceWrites
    (trace (snd (do_write okTransport (Some sampleMap) (Some 0x10) 8 4
                   [1; 2; 3] emptyWorld))) = [].
Proof. split; reflexivity. Qed.

(** ** A device that accepts everything *)

Lemma deviceWrites_app (t u : list event) :
  deviceWrites (t ++ u) = deviceWrites t ++ deviceWrites u.
Proof. apply filter_app. Qed.

Lemma bind_Ok {D A B} (m : M D A) (k : A -> M D B) (w w' : world D) (a : A) :
  m w = (Ok a, w') -> bind m k w = k a w'.
Proof. unfold bind. now intros ->. Qed.

Lemma bind_Throw {D A B} (m : M D A) (k : A -> M D B) (w w' : world D) e :
  m w = (Throw e, w') -> bind m k w = (Throw e, w').
Proof. unfold bind. now intros ->. Qed.

Lemma slice_range (data : list Z) (b e : Z) :
  0 <= b <= e -> e <= Z.of_nat (length data) ->
  slice data b e = firstn (Z.to_nat (e - b)) (skipn (Z.to_nat b) data) /\
  Z.of_nat (length (slice data b e)) = e - b.
Proof.
  intros Hb He. unfold slice, clampIndex.
  destruct (Z.ltb_spec b 0); [lia|]. destruct (Z.ltb_spec e 0); [lia|].
  rewrite !Z.min_l by lia. rewrite Z.max_l by lia.
  split; [reflexivity|].
  rewrite length_firstn, length_skipn. lia.
Qed.

Section OkDevice.

Context {D : Type}.
Variable base : Transport D.
Hypothesis write_all : forall payload blockIndex d,
  fst (write base payload blockIndex d) = inr (Z.of_nat (length payload)).
Hypothesis poll_ok : forall p d,
  exists st, fst (poll_until base p d) = inr st /\ status st = STATUS_OK base.
Hypothesis poll_idle_ok : forall d,
  exists st, fst (poll_until_idle base d) = inr st /\ status st = STATUS_OK base.

Lemma baseWrite_ok (payload : list Z) (blockIndex : Z) (w : world D) :
  exists w', baseWrite base payload blockIndex w
             = (Ok (Z.of_nat (length payload)), w') /\
             trace w' = trace w ++ [DevWrite payload blockIndex].
Proof.
  unfold baseWrite. pose proof (write_all payload blockIndex (device w)) as H.
  destruct (write base payload blockIndex (device w)) as [r d]. simpl in H.
  subst r. eexists. split; reflexivity.
Qed.

Lemma basePollUntil_ok (p : pollPredicate) (w : world D) :
  exists st w', basePollUntil base p w = (Ok st, w') /\
                status st = STATUS_OK base /\
                trace w' = trace w ++ [DevPollUntil p].
Proof.
  unfold basePollUntil. destruct (poll_ok p (device w)) as [st [H Hs]].
  destruct (poll_until base p (device w)) as [r d]. simpl in H. subst r.
  exists st. eexists. repeat split; assumption.
Qed.

Lemma basePollUntilIdle_ok (w : world D) :
  exists st w', basePollUntilIdle base w = (Ok st, w') /\
                status st = STATUS_OK base /\
                trace w' = trace w ++ [DevPollUntilIdle].
Proof.
  unfold basePollUntilIdle. destruct (poll_idle_ok (device w)) as [st [H Hs]].
  destruct (poll_until_idle base (device w)) as [r d]. simpl in H. subst r.
  exists st. eexists. repeat split; assumption.
Qed.

(** A four-byte command goes through: one [write], one poll. *)
Lemma dfuseCommand_ok (command addr : Z) (w : world D) :
  0 <= command < 256 ->
  exists w', dfuseCommand base command (Num addr) 4 w = (Ok tt, w') /\
             trace w' = trace w ++ [commandWrite command addr;
                                    DevPollUntil NotDnBusy].
Proof.
  intros Hc.
  assert (Hcm : command mod 2 ^ 8 = command) by (apply Z.mod_small; simpl; lia).
  assert (Hp : commandPayload command (Num addr) 4
               = Ok (command :: le32 (addr mod 2 ^ 32))).
  { unfold commandPayload, setUint8, setUint32LE. cbn -[Z.modulo Z.pow le32].
    now rewrite Hcm. }
  destruct (baseWrite_ok (command :: le32 (addr mod 2 ^ 32)) 0 w)
    as [w1 [E1 T1]].
  destruct (basePollUntil_ok NotDnBusy w1) as [st [w2 [E2 [S2 T2]]]].
  exists w2. split.
  - unfold dfuseCommand, bind, lift, tryCatch, ret, throw. rewrite Hp.
    cbv beta iota. rewrite E1. cbv beta iota. rewrite E2, S2, Z.eqb_refl.
    reflexivity.
  - rewrite T2, T1, <- app_assoc. reflexivity.
Qed.

Lemma writeIter_ok (xfer_size : Z) (data : list Z) (b a : Z) (w : world D) :
  0 < xfer_size -> 0 <= b < Z.of_nat (length data) ->
  let size := Z.min (Z.of_nat (length data) - b) xfer_size in
  exists w',
    writeIter base xfer_size data (Z.of_nat (length data)) b a w
    = (Ok (b + size, a + size), w') /\
    deviceWrites (trace w')
    = deviceWrites (trace w)
      ++ [commandWrite SET_ADDRESS a;
          DevWrite (firstn (Z.to_nat size) (skipn (Z.to_nat b) data)) 2].
Proof.
  intros HC Hb size.
  destruct (slice_range data b (b + size)) as [Hsl Hlen]; [lia|lia|].
  replace (b + size - b) with size in * by lia.
  destruct (dfuseCommand_ok SET_ADDRESS a w) as [w1 [E1 T1]];
    [unfold SET_ADDRESS; lia|].
  destruct (baseWrite_ok (slice data b (b + size)) 2 w1) as [w2 [E2 T2]].
  destruct (basePollUntilIdle_ok w2) as [st [w3 [E3 [S3 T3]]]].
  eexists. split.
  - unfold writeIter, bind, tryCatch, ret, throw, logProgress, emit.
    fold size. rewrite E1. cbv beta iota. rewrite E2. cbv beta iota.
    rewrite E3. cbv beta iota. rewrite S3, Z.eqb_refl, Hlen. reflexivity.
  - cbn [trace]. rewrite T3, T2, T1, Hsl. rewrite !deviceWrites_app.
    cbn. rewrite !app_nil_r, <- app_assoc. reflexivity.
Qed.

Lemma writeLoop_run (xfer_size : Z) (data : list Z) (a : Z) :
  0 < xfer_size ->
  forall (m k fuel : nat) (w : world D),
    (1 <= m <= fuel)%nat ->
    (Z.of_nat (k + m) - 1) * xfer_size < Z.of_nat (length data)
      <= Z.of_nat (k + m) * xfer_size ->
    exists w' st,
      writeLoop base fuel xfer_size data (Z.of_nat (length data))
        (Z.of_nat k * xfer_size) (a + Z.of_nat k * xfer_size) w
      = (Ok st, w') /\
      fst st = Z.of_nat (length data) /\
      deviceWrites (trace w')
      = deviceWrites (trace w)
        ++ flat_map (transferPair a xfer_size data) (seq k m).
Proof.
  intros HC. induction m as [|m IH]; intros k fuel w Hm HN; [lia|].
  destruct fuel as [|fuel]; [lia|].
  set (N := Z.of_nat (length data)) in *.
  assert (HkN : Z.of_nat k * xfer_size < N) by nia.
  destruct (writeIter_ok xfer_size data (Z.of_nat k * xfer_size)
              (a + Z.of_nat k * xfer_size) w HC) as [w1 [E1 T1]]; [fold N; nia|].
  fold N in E1, T1.
  cbn [writeLoop]. destruct (Z.ltb_spec (Z.of_nat k * xfer_size) N); [|lia].
  rewrite (bind_Ok _ _ _ _ _ E1). cbn [fst snd].
  destruct m as [|m].
  - (* the last chunk *)
    assert (Hsz : Z.min (N - Z.of_nat k * xfer_size) xfer_size
                  = N - Z.of_nat k * xfer_size) by nia.
    rewrite Hsz in *.
    replace (Z.of_nat k * xfer_size + (N - Z.of_nat k * xfer_size)) with N by lia.
    exists w1. eexists. split.
    + destruct fuel; cbn [writeLoop]; rewrite Z.ltb_irrefl; reflexivity.
    + split; [reflexivity|]. rewrite T1. f_equal. cbn [seq flat_map].
      rewrite app_nil_r. unfold transferPair, chunk. do 3 f_equal.
      rewrite !firstn_all2; [reflexivity| |];
        rewrite length_skipn; fold N; nia.
  - (* a full chunk, and more to come *)
    assert (Hsz : Z.min (N - Z.of_nat k * xfer_size) xfer_size = xfer_size) by nia.
    rewrite Hsz in *.
    replace (Z.of_nat k * xfer_size + xfer_size)
      with (Z.of_nat (S k) * xfer_size) by lia.
    replace (a + Z.of_nat k * xfer_size + xfer_size)
      with (a + Z.of_nat (S k) * xfer_size) by lia.
    destruct (IH (S k) fuel w1) as [w2 [st [E2 [F2 T2]]]]; [lia| |].
    { replace (S k + S m)%nat with (k + S (S m))%nat by lia. exact HN. }
    exists w2, st. split; [exact E2|]. split; [exact F2|].
    rewrite T2, T1, <- app_assoc. f_equal.
Qed.

Lemma chunkCount_bounds (N C : Z) :
  0 < N -> 0 < C ->
  (1 <= chunkCount N C)%nat /\
  (Z.of_nat (chunkCount N C) - 1) * C < N <= Z.of_nat (chunkCount N C) * C.
Proof.
  intros HN HC. unfold chunkCount.
  pose proof (Z.div_mod (N + C - 1) C ltac:(lia)) as Hdm.
  pose proof (Z.mod_pos_bound (N + C - 1) C HC) as Hb.
  assert (Hq : 1 <= (N + C - 1) / C) by (apply Z.div_le_lower_bound; lia).
  rewrite Z2Nat.id by lia. split; [lia|nia].
Qed.

Lemma manifest_ok (a : Z) (w : world D) :
  exists w', manifest base a w = (Ok tt, w') /\
             deviceWrites (trace w')
             = deviceWrites (trace w) ++ [commandWrite SET_ADDRESS a; DevWrite [] 0].
Proof.
  pose (w0 := mkWorld (device w) (trace w ++ [LogInfo ManifestingFirmware])).
  destruct (dfuseCommand_ok SET_ADDRESS a w0) as [w1 [E1 T1]];
    [unfold SET_ADDRESS; lia|].
  destruct (baseWrite_ok [] 0 w1) as [w2 [E2 T2]].
  destruct (basePollUntil_ok IsManifest w2) as [st [w3 [E3 [_ T3]]]].
  exists w3. split.
  - unfold manifest, bind, tryCatch, ret, throw, emit. fold w0.
    rewrite E1. cbv beta iota. rewrite E2. cbv beta iota. rewrite E3.
    reflexivity.
  - rewrite T3, T2, T1. unfold w0. cbn [trace]. rewrite !deviceWrites_app.
    cbn. rewrite !app_nil_r, <- app_assoc. reflexivity.
Qed.

(** The transfers and the manifestation of [do_write] (lines 172-204), once
    its erase phase has returned with the effective start address [a]. *)
Lemma do_write_after_erase (segments : list DFUseMemorySegment)
    (startAddress : option Z) (fuel : nat) (C : Z) (data : list Z)
    (a : Z) (w w1 : world D) :
  let N := Z.of_nat (length data) in
  0 < N -> 0 < C -> (chunkCount N C <= fuel)%nat ->
  (emit (LogInfo ErasingMemory) ;;;
   a <- resolveStartAddress (Some segments) startAddress segments ;;
   erase base (Some segments) fuel a N ;;; ret a) w = (Ok a, w1) ->
  exists w2,
    do_write base (Some segments) startAddress fuel C data w = (Ok tt, w2) /\
    deviceWrites (trace w2)
    = deviceWrites (trace w1)
      ++ flat_map (transferPair a C data) (seq 0 (chunkCount N C))
      ++ [commandWrite SET_ADDRESS a; DevWrite [] 0].
Proof.
  intros N HN HC Hfuel Hpre.
  destruct (chunkCount_bounds N C HN HC) as [Hn1 Hn].
  pose (w1' := mkWorld (device w1) (trace w1 ++ [LogInfo CopyingData])).
  destruct (writeLoop_run C data a HC (chunkCount N C) 0 fuel w1')
    as [w2 [st [E2 [F2 T2]]]]; [lia|exact Hn|].
  cbn [Z.of_nat Z.mul] in E2. rewrite Z.add_0_r in E2.
  pose (w2' := mkWorld (device w2) (trace w2 ++ [LogInfo (WroteBytes (fst st))])).
  destruct (manifest_ok a w2') as [w3 [E3 T3]].
  exists w3. split.
  - unfold do_write, writeFrom.
    unfold bind, emit, ret in Hpre. unfold bind at 1 2. unfold emit at 1.
    destruct (resolveStartAddress (Some segments) startAddress segments _)
      as [[a'| |] w0]; try discriminate.
    unfold bind at 1.
    destruct (erase base (Some segments) fuel a' _ w0) as [[[]| |] w0'];
      try discriminate.
    injection Hpre as -> ->.
    unfold bind at 1. unfold emit at 1. fold w1'. fold N.
    rewrite (bind_Ok _ _ _ _ _ E2).
    unfold bind at 1. unfold emit at 1. fold w2'. exact E3.
  - rewrite T3. unfold w2'. cbn [trace]. rewrite deviceWrites_app.
    cbn [deviceWrites filter isDevWrite]. rewrite app_nil_r, T2.
    unfold w1'. cbn [trace]. rewrite deviceWrites_app.
    cbn [deviceWrites filter isDevWrite]. rewrite app_nil_r.
    now rewrite <- app_assoc.
Qed.

End OkDevice.

(** ** The erase loop on a well-formed span *)

Lemma segment_eq_dec (s t : DFUseMemorySegment) : {s = t} + {s <> t}.
Proof. decide equality; (apply Z.eq_dec || apply bool_dec). Defined.

Lemma distinct_disjoint (l : list DFUseMemorySegment) (s t : DFUseMemorySegment) :
  nonOverlapping l -> In s l -> In t l -> s <> t ->
  forall a, ~ (inside s a /\ inside t a).
Proof.
  intros Hno. induction Hno as [|u l Hu _ IH]; [intros []|].
  rewrite Forall_forall in Hu.
  intros [<-|Hs] [<-|Ht] Hst a [Ha Hb].
  - now apply Hst.
  - now apply (Hu t Ht a).
  - now apply (Hu s Hs a).
  - now apply (IH Hs Ht Hst a).
Qed.

Lemma aligned_multiple (x size : Z) :
  0 < size -> x mod size = 0 -> exists k, x = k * size.
Proof.
  intros Hs Hm. exists (x / size).
  pose proof (Z.div_mod x size ltac:(lia)). lia.
Qed.

Lemma multiples_step (q k size : Z) :
  0 < size -> q * size < k * size -> q * size + size <= k * size.
Proof.
  intros Hs Hlt. assert (q < k) by nia. nia.
Qed.

Lemma sectorStartOf_aligned (s : DFUseMemorySegment) (a : Z) :
  0 < sectorSize s -> (a - start s) mod sectorSize s = 0 ->
  sectorStartOf a s = Num a.
Proof.
  intros Hs Hm. destruct (sectorStartOf_bounds s a Hs) as [x [Hx [_ [_ Hal]]]].
  now rewrite Hx, (Hal Hm).
Qed.

Lemma map_seq_from (lo : Z) (n a : nat) :
  map (fun i => lo + Z.of_nat i) (seq a n)
  = map (fun i => lo + Z.of_nat a + Z.of_nat i) (seq 0 n).
Proof.
  revert a. induction n as [|n IH]; intros a; [reflexivity|].
  cbn [seq map]. f_equal; [lia|].
  rewrite IH, <- seq_shift, map_map. apply map_ext. intros i. lia.
Qed.

Lemma addresses_split (lo mid hi : Z) :
  lo <= mid <= hi -> addresses lo hi = addresses lo mid ++ addresses mid hi.
Proof.
  intros H. unfold addresses.
  replace (Z.to_nat (hi - lo)) with (Z.to_nat (mid - lo) + Z.to_nat (hi - mid))%nat
    by lia.
  rewrite seq_app, map_app. f_equal. cbn [Nat.add].
  rewrite map_seq_from. apply map_ext. intros i. lia.
Qed.

Lemma addresses_In (lo hi x : Z) : In x (addresses lo hi) -> lo <= x < hi.
Proof.
  unfold addresses. rewrite in_map_iff. intros [i [<- Hi]].
  apply in_seq in Hi. lia.
Qed.

Lemma addresses_cons (lo hi : Z) :
  lo < hi -> addresses lo hi = lo :: addresses (lo + 1) hi.
Proof.
  intros H. rewrite (addresses_split lo (lo + 1) hi) by lia.
  unfold addresses at 1. replace (lo + 1 - lo) with 1 by lia. simpl.
  now rewrite Z.add_0_r.
Qed.

Lemma erasableSectors_split (segments : list DFUseMemorySegment) (lo mid hi : Z) :
  lo <= mid <= hi ->
  erasableSectors segments lo hi
  = erasableSectors segments lo mid ++ erasableSectors segments mid hi.
Proof.
  intros H. unfold erasableSectors.
  now rewrite (addresses_split lo mid hi H), filter_app.
Qed.

Lemma erasableSectors_none (segments : list DFUseMemorySegment) (lo hi : Z) :
  (forall x, lo <= x < hi -> isErasableSector segments x = false) ->
  erasableSectors segments lo hi = [].
Proof.
  intros H. unfold erasableSectors.
  assert (Hall : forall x, In x (addresses lo hi) -> lo <= x < hi)
    by apply addresses_In.
  induction (addresses lo hi) as [|x l IH]; [reflexivity|]. simpl.
  rewrite H by (apply Hall; now left). apply IH. intros y Hy. apply Hall. now right.
Qed.

Lemma erasableSectors_empty (segments : list DFUseMemorySegment) (lo hi : Z) :
  hi <= lo -> erasableSectors segments lo hi = [].
Proof. intros H. apply erasableSectors_none. lia. Qed.

Section EraseSpan.

Variable segments : list DFUseMemorySegment.
Variables addr0 endAddr : Z.
Hypothesis Hno : nonOverlapping segments.
Hypothesis Hne : nonEmpty segments.
Hypothesis Hdiv : sectorsDivide segments.
Hypothesis Hcov : covered segments addr0 endAddr.
(** [endAddr] is a sector boundary of some segment. *)
Hypothesis Hend : exists sL, In sL segments /\ start sL < endAddr <= end_ sL /\
                             (endAddr - start sL) mod sectorSize sL = 0.

Lemma segment_facts (s : DFUseMemorySegment) :
  In s segments ->
  start s < end_ s /\ 0 < sectorSize s /\
  exists k, end_ s - start s = k * sectorSize s.
Proof.
  intros Hs. unfold nonEmpty, sectorsDivide in *. rewrite Forall_forall in *.
  specialize (Hne s Hs). destruct (Hdiv s Hs) as [Hp Hm].
  repeat split; try assumption. now apply aligned_multiple.
Qed.

Lemma inside_unique (s t : DFUseMemorySegment) (x : Z) :
  In s segments -> In t segments -> inside s x -> inside t x -> s = t.
Proof.
  intros Hs Ht Hx Hy. destruct (segment_eq_dec s t) as [E|E]; [exact E|].
  exfalso. apply (distinct_disjoint segments s t Hno Hs Ht E x). now split.
Qed.

(** Two different segments of the map, the first of which begins before
    the end of the second, are one after the other. *)
Lemma segments_ordered (s t : DFUseMemorySegment) :
  In s segments -> In t segments -> s <> t -> start s < end_ t ->
  end_ s <= start t.
Proof.
  intros Hs Ht E Hlt.
  destruct (segment_facts s Hs) as [Hs1 _].
  destruct (segment_facts t Ht) as [Ht1 _].
  destruct (Z.le_gt_cases (end_ s) (start t)) as [|Hgt]; [assumption|].
  exfalso.
  apply (distinct_disjoint segments s t Hno Hs Ht E (Z.max (start s) (start t))).
  unfold inside. lia.
Qed.

(** Line 127-129: the segment of the turn contains [addr], and [addr] is
    one of its sector boundaries. *)
Lemma resolve_segment (s : DFUseMemorySegment) (addr : Z) :
  eraseInv segments addr0 s addr -> addr < endAddr ->
  exists s',
    (if end_ s <=? addr then findSegment segments addr else Some s) = Some s' /\
    In s' segments /\ inside s' addr /\
    (addr - start s') mod sectorSize s' = 0.
Proof.
  intros [Hs [Hr [Hal H0]]] Hlt.
  destruct (Z.leb_spec (end_ s) addr) as [Hge|Hin].
  - destruct (Hcov addr ltac:(lia)) as [t [Ht Hta]].
    exists t. split; [now apply findSegment_unique|].
    split; [assumption|]. split; [assumption|].
    assert (E : s <> t) by (intros ->; unfold inside in Hta; lia).
    pose proof (segments_ordered s t Hs Ht E) as Hord.
    unfold inside in Hta.
    replace (addr - start t) with 0 by lia. apply Z.mod_0_l.
    destruct (segment_facts t Ht) as [_ [Hp _]]. lia.
  - exists s. repeat split; try assumption; lia.
Qed.

(** A whole sector fits between [addr] and both the end of its segment
    and [endAddr]. *)
Lemma sector_room (s : DFUseMemorySegment) (addr : Z) :
  In s segments -> inside s addr ->
  (addr - start s) mod sectorSize s = 0 -> addr < endAddr ->
  addr + sectorSize s <= end_ s /\ addr + sectorSize s <= endAddr.
Proof.
  intros Hs Ha Hal Hlt. unfold inside in Ha.
  destruct (segment_facts s Hs) as [Hs1 [Hp [k Hk]]].
  destruct (aligned_multiple _ _ Hp Hal) as [q Hq].
  assert (Hfit : addr + sectorSize s <= end_ s).
  { pose proof (multiples_step q k (sectorSize s) Hp). lia. }
  split; [exact Hfit|].
  destruct Hend as [sL [HL [HLr HLa]]].
  destruct (segment_eq_dec s sL) as [<-|E].
  - destruct (aligned_multiple _ _ Hp HLa) as [q' Hq'].
    pose proof (multiples_step q q' (sectorSize s) Hp). lia.
  - pose proof (segments_ordered s sL Hs HL E). lia.
Qed.

Lemma erasableSectors_erased (s : DFUseMemorySegment) (addr : Z) :
  In s segments -> inside s addr ->
  (addr - start s) mod sectorSize s = 0 ->
  addr + sectorSize s <= end_ s -> erasable s = true ->
  erasableSectors segments addr (addr + sectorSize s) = [addr].
Proof.
  intros Hs Ha Hal Hfit He.
  destruct (segment_facts s Hs) as [_ [Hp _]].
  unfold erasableSectors. rewrite addresses_cons by lia. cbn [filter].
  unfold isErasableSector at 1.
  rewrite (findSegment_unique segments addr s Hno Hs Ha), He, Hal. simpl.
  f_equal. apply erasableSectors_none. intros x Hx.
  unfold isErasableSector.
  rewrite (findSegment_unique segments x s Hno Hs) by (unfold inside in *; lia).
  rewrite He. simpl. apply Z.eqb_neq.
  destruct (aligned_multiple _ _ Hp Hal) as [q Hq].
  replace (x - start s) with ((x - addr) + q * sectorSize s) by lia.
  rewrite Z_mod_plus_full, Z.mod_small; lia.
Qed.

Lemma erasableSectors_skipped (s : DFUseMemorySegment) (addr hi : Z) :
  In s segments -> inside s addr -> hi <= end_ s -> erasable s = false ->
  erasableSectors segments addr hi = [].
Proof.
  intros Hs Ha Hhi He. apply erasableSectors_none. intros x Hx.
  unfold isErasableSector.
  rewrite (findSegment_unique segments x s Hno Hs) by (unfold inside in *; lia).
  now rewrite He.
Qed.

Context {D : Type}.
Variable base : Transport D.
(** A positive lower bound of the sector sizes of the map. *)
Variable m : Z.
Hypothesis Hm : 0 < m.
Hypothesis Hmin : forall s, In s segments -> m <= sectorSize s.

(** A four-byte command returns after its [write] and its poll, or throws. *)
Lemma dfuseCommand_cases (command x : Z) (w : world D) :
  0 <= command < 256 ->
  (exists w', dfuseCommand base command (Num x) 4 w = (Ok tt, w') /\
              trace w' = trace w ++ [commandWrite command x;
                                     DevPollUntil NotDnBusy]) \/
  (exists e w', dfuseCommand base command (Num x) 4 w = (Throw e, w')).
Proof.
  intros Hc.
  assert (Hcm : command mod 2 ^ 8 = command) by (apply Z.mod_small; simpl; lia).
  assert (Hp : commandPayload command (Num x) 4
               = Ok (command :: le32 (x mod 2 ^ 32))).
  { unfold commandPayload, setUint8, setUint32LE. cbn -[Z.modulo Z.pow le32].
    now rewrite Hcm. }
  unfold dfuseCommand, bind, lift, tryCatch, ret, throw, baseWrite, basePollUntil.
  rewrite Hp. cbv beta iota.
  destruct (write base _ 0 (device w)) as [[e|n] d]; cbn [ofSum device trace].
  - right. eexists. eexists. reflexivity.
  - destruct (poll_until base NotDnBusy d) as [[e|st] d']; cbn [ofSum].
    + right. eexists. eexists. reflexivity.
    + destruct (status st =? STATUS_OK base).
      * left. eexists. split; [reflexivity|]. cbn [trace].
        now rewrite <- app_assoc.
      * right. eexists. eexists. reflexivity.
Qed.

Lemma eraseIter_resolved (s s' : DFUseMemorySegment) (addr be total : Z)
    (w : world D) :
  (if end_ s <=? addr then findSegment segments addr else Some s) = Some s' ->
  eraseIter base (Some segments) total (Some s) addr be w
  = (if erasable s'
     then dfuseCommand base ERASE_SECTOR (sectorStartOf addr s') 4 ;;;
          logProgress (be + sectorSize s') total ;;;
          ret (mkErase (Some s')
                 match sectorStartOf addr s' with
                 | Num a => Num (a + sectorSize s')
                 | NaN => NaN
                 end
                 (be + sectorSize s'))
     else logProgress (Z.min (be + end_ s' - addr) total) total ;;;
          ret (mkErase (Some s') (Num (end_ s'))
                 (Z.min (be + end_ s' - addr) total))) w.
Proof.
  intros Hres. unfold eraseIter, bind at 1, lift, ret, getSegment.
  cbn [endOrZero].
  destruct (end_ s <=? addr); [rewrite Hres|injection Hres as ->]; reflexivity.
Qed.

(** One turn of the loop from a sector boundary [addr < endAddr]: the
    command throws, or the turn ends at a later sector boundary [addr'],
    with the progress reported and the erasable sectors of
    [addr, addr') erased. *)
Lemma eraseIter_step (s : DFUseMemorySegment) (addr be : Z) (w : world D) :
  eraseInv segments addr0 s addr -> addr < endAddr ->
  be = Z.min (addr - addr0) (endAddr - addr0) ->
  (exists e w',
      eraseIter base (Some segments) (endAddr - addr0) (Some s) addr be w = (Throw e, w') /\
      exists x w0, dfuseCommand base ERASE_SECTOR (Num x) 4 w0 = (Throw e, w')) \/
  (exists s' addr' be' w' X t,
      eraseIter base (Some segments) (endAddr - addr0) (Some s) addr be w
      = (Ok (mkErase (Some s') (Num addr') be'), w') /\
      eraseInv segments addr0 s' addr' /\ addr + m <= addr' /\
      be' = Z.min (addr' - addr0) (endAddr - addr0) /\
      trace w' = trace w ++ t ++ [LogProgress be' (endAddr - addr0)] /\
      deviceWrites (trace w')
      = deviceWrites (trace w) ++ map (commandWrite ERASE_SECTOR) X /\
      erasableSectors segments addr endAddr
      = X ++ erasableSectors segments addr' endAddr).
Proof.
  intros Hinv Hlt Hbe.
  destruct (resolve_segment s addr Hinv Hlt) as [s' [Hres [Hs' [Ha Hal]]]].
  destruct Hinv as [_ [_ [_ H0]]].
  destruct (sector_room s' addr Hs' Ha Hal Hlt) as [Hfit Hroom].
  destruct (segment_facts s' Hs') as [Hs1 [Hp [k Hk]]].
  pose proof (Hmin s' Hs') as Hms.
  rewrite (eraseIter_resolved s s' addr be (endAddr - addr0) w Hres).
  destruct (erasable s') eqn:He.
  - (* the sector at [addr] is erased *)
    pose proof Ha as Hin. unfold inside in Hin.
    rewrite (sectorStartOf_aligned s' addr Hp Hal).
    destruct (dfuseCommand_cases ERASE_SECTOR addr w) as [[w1 [E1 T1]]|[e [w1 E1]]];
      [unfold ERASE_SECTOR; lia| |].
    + right. rewrite (bind_Ok _ _ _ _ _ E1).
      exists s', (addr + sectorSize s'), (be + sectorSize s').
      eexists. exists [addr]. eexists.
      split; [unfold logProgress, emit, bind, ret; reflexivity|].
      split.
      { split; [assumption|]. split; [lia|]. split; [|lia].
        destruct (aligned_multiple _ _ Hp Hal) as [q Hq].
        replace (addr + sectorSize s' - start s') with ((q + 1) * sectorSize s')
          by lia.
        apply Z.mod_mul. lia. }
      split; [lia|]. split; [lia|].
      split; [cbn [trace]; rewrite T1, <- app_assoc; reflexivity|].
      split.
      { cbn [trace]. rewrite T1, !deviceWrites_app. cbn.
        now rewrite app_nil_r. }
      rewrite (erasableSectors_split segments addr (addr + sectorSize s') endAddr)
        by lia.
      now rewrite (erasableSectors_erased s' addr Hs' Ha Hal Hfit He).
    + left. rewrite (bind_Throw _ _ _ _ _ E1).
      exists e, w1. split; [reflexivity|]. now exists addr, w.
  - (* the rest of the segment is skipped *)
    right. pose proof Ha as Hin. unfold inside in Hin.
    exists s', (end_ s'), (Z.min (be + end_ s' - addr) (endAddr - addr0)).
    eexists. exists []. exists [].
    split; [unfold logProgress, emit, bind, ret; reflexivity|].
    split.
    { split; [assumption|]. split; [lia|]. split; [|lia].
      rewrite Hk. apply Z.mod_mul. lia. }
    split; [lia|]. split; [lia|].
    split; [reflexivity|].
    split.
    { cbn [trace map]. rewrite deviceWrites_app. reflexivity. }
    cbn [app]. destruct (Z.le_gt_cases (end_ s') endAddr) as [Hle|Hgt].
    + rewrite (erasableSectors_split segments addr (end_ s') endAddr) by lia.
      now rewrite (erasableSectors_skipped s' addr (end_ s') Hs' Ha
                     (Z.le_refl _) He).
    + rewrite (erasableSectors_skipped s' addr endAddr Hs' Ha
                 ltac:(lia) He).
      symmetry. apply erasableSectors_empty. lia.
Qed.

Lemma eraseLoop_exit (fuel : nat) (total : Z) (st : eraseState) (addr : Z)
    (w : world D) :
  er_addr st = Num addr -> endAddr <= addr ->
  eraseLoop base (Some segments) fuel endAddr total st w = (Ok st, w).
Proof.
  intros Ha Hge. destruct fuel; cbn [eraseLoop]; rewrite Ha;
    destruct (Z.ltb_spec addr endAddr); try lia; reflexivity.
Qed.

(** The loop from a sector boundary, with fuel for
    [(endAddr - addr) / m] turns: it does not run out of fuel; it throws
    only what a command threw; when it returns, the erasable sectors of
    [addr, endAddr) have been erased in ascending order, nothing else was
    sent, and the last progress reported is the whole span. *)
Lemma eraseLoop_run (n : nat) :
  forall (s : DFUseMemorySegment) (addr be : Z) (w : world D) (fuel : nat),
    eraseInv segments addr0 s addr ->
    be = Z.min (addr - addr0) (endAddr - addr0) ->
    (endAddr - addr) / m <= Z.of_nat n -> (n <= fuel)%nat ->
    exists r w',
      eraseLoop base (Some segments) fuel endAddr (endAddr - addr0)
        (mkErase (Some s) (Num addr) be) w = (r, w') /\
      match r with
      | Diverge => False
      | Throw e =>
          exists x w0, dfuseCommand base ERASE_SECTOR (Num x) 4 w0 = (Throw e, w')
      | Ok st' =>
          er_bytesErased st' = (endAddr - addr0) /\
          deviceWrites (trace w')
          = deviceWrites (trace w)
            ++ map (commandWrite ERASE_SECTOR)
                 (erasableSectors segments addr endAddr) /\
          (addr < endAddr ->
           exists t, trace w' = trace w ++ t ++ [LogProgress (endAddr - addr0) (endAddr - addr0)]) /\
          (endAddr <= addr -> w' = w)
      end.
Proof.
  induction n as [|n IH]; intros s addr be w fuel Hinv Hbe Hn Hfuel.
  - (* no turn left: [addr] has reached [endAddr] *)
    assert (Hge : endAddr <= addr).
    { destruct (Z.le_gt_cases endAddr addr) as [|Hlt]; [assumption|]. exfalso.
      destruct (resolve_segment s addr Hinv Hlt) as [s' [_ [Hs' [Ha Hal]]]].
      destruct (sector_room s' addr Hs' Ha Hal Hlt) as [_ Hroom].
      pose proof (Hmin s' Hs').
      assert (1 <= (endAddr - addr) / m) by (apply Z.div_le_lower_bound; lia).
      lia. }
    eexists. eexists. split; [now apply (eraseLoop_exit fuel (endAddr - addr0) _ addr)|].
    cbn [er_bytesErased]. destruct Hinv as [_ [_ [_ H0]]].
    split; [lia|].
    split; [rewrite erasableSectors_empty by lia; now rewrite app_nil_r|].
    split; [lia|reflexivity].
  - destruct (Z.le_gt_cases endAddr addr) as [Hge|Hlt].
    + eexists. eexists. split; [now apply (eraseLoop_exit fuel (endAddr - addr0) _ addr)|].
      cbn [er_bytesErased]. destruct Hinv as [_ [_ [_ H0]]].
      split; [lia|].
      split; [rewrite erasableSectors_empty by lia; now rewrite app_nil_r|].
      split; [lia|reflexivity].
    + destruct fuel as [|fuel]; [lia|].
      cbn [eraseLoop er_addr er_segment er_bytesErased].
      destruct (Z.ltb_spec addr endAddr) as [_|]; [|lia].
      destruct (eraseIter_step s addr be w Hinv Hlt Hbe)
        as [[e [w1 [E1 Hcmd]]]
           |[s' [addr' [be' [w1 [X [t [E1 [Hinv' [Hadv [Hbe' [T1 [W1 HX]]]]]]]]]]]]].
      * exists (Throw e), w1. split; [now rewrite (bind_Throw _ _ _ _ _ E1)|].
        exact Hcmd.
      * rewrite (bind_Ok _ _ _ _ _ E1).
        assert (Hn' : (endAddr - addr') / m <= Z.of_nat n).
        { assert ((endAddr - addr') / m <= (endAddr - addr - m) / m)
            by (apply Z.div_le_mono; lia).
          replace (endAddr - addr - m) with (endAddr - addr + (-1) * m) in * by lia.
          rewrite Z.div_add in * by lia. lia. }
        destruct (IH s' addr' be' w1 fuel Hinv' Hbe' Hn' ltac:(lia))
          as [r [w2 [E2 Hr]]].
        exists r, w2. split; [exact E2|].
        destruct r as [st'|e|]; [|exact Hr|exact Hr].
        destruct Hr as [Hb [W2 [Hlast Hsame]]].
        split; [exact Hb|].
        split; [rewrite W2, W1, HX, map_app, <- app_assoc; reflexivity|].
        split; [|lia]. intros _.
        destruct (Z.le_gt_cases endAddr addr') as [Hge'|Hlt'].
        -- rewrite (Hsame Hge'), T1. exists t.
           assert (Hfull : be' = (endAddr - addr0))
             by (destruct Hinv' as [_ [_ [_ H0']]]; lia).
           now rewrite Hfull.
        -- destruct (Hlast Hlt') as [t' Ht'].
           exists (t ++ [LogProgress be' (endAddr - addr0)] ++ t').
           rewrite Ht', T1, <- !app_assoc. reflexivity.
Qed.

(** A turn that returns has moved [addr] forward: by one sector of an
    erasable segment, or to the end of a segment that is not erasable. *)
Lemma eraseIter_advances (s : DFUseMemorySegment) (addr be total : Z)
    (w w' : world D) (st' : eraseState) :
  eraseInv segments addr0 s addr -> addr < endAddr ->
  eraseIter base (Some segments) total (Some s) addr be w = (Ok st', w') ->
  exists s' addr',
    In s' segments /\ inside s' addr /\ er_addr st' = Num addr' /\
    addr + m <= addr' /\
    ((erasable s' = true /\ addr' = addr + sectorSize s') \/
     (erasable s' = false /\ addr' = end_ s')).
Proof.
  intros Hinv Hlt.
  destruct (resolve_segment s addr Hinv Hlt) as [s' [Hres [Hs' [Ha Hal]]]].
  destruct (sector_room s' addr Hs' Ha Hal Hlt) as [Hfit Hroom].
  destruct (segment_facts s' Hs') as [Hs1 [Hp _]].
  pose proof (Hmin s' Hs') as Hms.
  rewrite (eraseIter_resolved s s' addr be total w Hres).
  destruct (erasable s') eqn:He.
  - rewrite (sectorStartOf_aligned s' addr Hp Hal).
    unfold bind, logProgress, emit, ret.
    destruct (dfuseCommand base ERASE_SECTOR (Num addr) 4 w) as [[[]|e|] w1];
      try discriminate.
    intros [= <- <-]. exists s', (addr + sectorSize s').
    split; [assumption|]. split; [exact Ha|]. split; [reflexivity|].
    split; [lia|]. left. now split.
  - unfold bind, logProgress, emit, ret. intros [= <- <-].
    exists s', (end_ s'). unfold inside in Ha.
    split; [assumption|]. split; [exact Ha|]. split; [reflexivity|].
    split; [lia|]. right. now split.
Qed.

End EraseSpan.

(** The range of [erase], for a span that the map covers: [addr] and
    [endAddr] are sector boundaries around it. *)
Lemma erase_range (segments : list DFUseMemorySegment)
    (startAddr length addr0 endAddr : Z) :
  nonOverlapping segments -> nonEmpty segments -> sectorsDivide segments ->
  1 <= length -> covered segments startAddr (startAddr + length) ->
  getSectorStart (Some segments) startAddr Undefined = Ok (Num addr0) ->
  getSectorEnd (Some segments) (startAddr + length - 1) Undefined
  = Ok (Num endAddr) ->
  exists s0,
    findSegment segments startAddr = Some s0 /\
    eraseInv segments addr0 s0 addr0 /\
    addr0 <= startAddr /\ startAddr + length <= endAddr /\
    covered segments addr0 endAddr /\
    (exists sL, In sL segments /\ start sL < endAddr <= end_ sL /\
                (endAddr - start sL) mod sectorSize sL = 0).
Proof.
  intros Hno Hne Hdiv Hlen Hcov Hstart Hend.
  cbn [getSectorStart getSectorEnd getSegment] in Hstart, Hend.
  destruct (findSegment segments startAddr) as [s0|] eqn:E0; [|discriminate].
  destruct (findSegment segments (startAddr + length - 1)) as [sL|] eqn:EL;
    [|discriminate].
  destruct (findSegment_Some _ _ _ E0) as [Hs0 Ha0].
  destruct (findSegment_Some _ _ _ EL) as [HsL HaL].
  destruct (segment_facts segments Hne Hdiv s0 Hs0) as [_ [Hp0 _]].
  destruct (segment_facts segments Hne Hdiv sL HsL) as [_ [HpL [kL HkL]]].
  unfold inside in Ha0, HaL.
  unfold sectorStartOf, sectorEndOf, sectorIndex in Hstart, Hend.
  destruct (Z.eqb_spec (sectorSize s0) 0); [lia|].
  destruct (Z.eqb_spec (sectorSize sL) 0); [lia|].
  injection Hstart as Hstart. injection Hend as Hend.
  set (i0 := (startAddr - start s0) / sectorSize s0) in *.
  set (iL := (startAddr + length - 1 - start sL) / sectorSize sL) in *.
  pose proof (Z.div_mod (startAddr - start s0) (sectorSize s0) ltac:(lia)) as D0.
  pose proof (Z.mod_pos_bound (startAddr - start s0) (sectorSize s0) Hp0) as B0.
  pose proof (Z.div_mod (startAddr + length - 1 - start sL) (sectorSize sL)
                ltac:(lia)) as DL.
  pose proof (Z.mod_pos_bound (startAddr + length - 1 - start sL)
                (sectorSize sL) HpL) as BL.
  fold i0 in D0. fold iL in DL.
  assert (Hi0 : 0 <= i0) by (apply Z.div_pos; lia).
  assert (HiL : 0 <= iL) by (apply Z.div_pos; lia).
  assert (H0lo : start s0 <= addr0 <= startAddr) by nia.
  assert (HLlo : startAddr + length - 1 < endAddr) by nia.
  assert (HLhi : endAddr <= end_ sL).
  { pose proof (multiples_step iL kL (sectorSize sL) HpL). nia. }
  exists s0. split; [reflexivity|].
  split.
  { split; [assumption|]. split; [lia|]. split; [|lia].
    replace (addr0 - start s0) with (i0 * sectorSize s0) by lia.
    apply Z.mod_mul. lia. }
  split; [lia|]. split; [lia|].
  split.
  { intros x Hx.
    destruct (Z.lt_ge_cases x startAddr) as [Hlt|Hge].
    - exists s0. split; [assumption|]. unfold inside. lia.
    - destruct (Z.lt_ge_cases x (startAddr + length)) as [Hin|Hout].
      + apply Hcov. lia.
      + exists sL. split; [assumption|]. unfold inside. lia. }
  exists sL. split; [assumption|]. split; [nia|].
  replace (endAddr - start sL) with ((iL + 1) * sectorSize sL) by lia.
  apply Z.mod_mul. lia.
Qed.

(** [erase] over a span that the map covers, with fuel for
    [(endAddr - addr) / m] turns of its loop. *)
Lemma erase_run {D : Type} (base : Transport D)
    (segments : list DFUseMemorySegment)
    (startAddr length addr0 endAddr m : Z) (fuel : nat) (w : world D) :
  nonOverlapping segments -> nonEmpty segments -> sectorsDivide segments ->
  1 <= length -> covered segments startAddr (startAddr + length) ->
  getSectorStart (Some segments) startAddr Undefined = Ok (Num addr0) ->
  getSectorEnd (Some segments) (startAddr + length - 1) Undefined
  = Ok (Num endAddr) ->
  0 < m -> (forall s, In s segments -> m <= sectorSize s) ->
  (Z.to_nat ((endAddr - addr0) / m) <= fuel)%nat ->
  exists r w',
    erase base (Some segments) fuel startAddr length w = (r, w') /\
    match r with
    | Diverge => False
    | Throw e =>
        exists x w0, dfuseCommand base ERASE_SECTOR (Num x) 4 w0 = (Throw e, w')
    | Ok _ =>
        deviceWrites (trace w')
        = deviceWrites (trace w)
          ++ map (commandWrite ERASE_SECTOR)
               (erasableSectors segments addr0 endAddr) /\
        exists t, trace w'
                  = trace w ++ t ++ [LogProgress (endAddr - addr0) (endAddr - addr0)]
    end.
Proof.
  intros Hno Hne Hdiv Hlen Hcov Hstart Hend Hm Hmin Hfuel.
  destruct (erase_range segments startAddr length addr0 endAddr
              Hno Hne Hdiv Hlen Hcov Hstart Hend)
    as [s0 [E0 [Hinv [Hlo [Hhi [Hcov' HendL]]]]]].
  assert (Hspan : addr0 < endAddr) by lia.
  pose (w0 := mkWorld (device w)
                (trace w ++ [LogProgress 0 (endAddr - addr0)])).
  destruct (eraseLoop_run segments addr0 endAddr Hno Hne Hdiv Hcov' HendL
              base m Hm Hmin (Z.to_nat ((endAddr - addr0) / m))
              s0 addr0 0 w0 fuel Hinv)
    as [r [w' [E Hr]]].
  { rewrite Z.sub_diag. lia. }
  { assert (0 <= (endAddr - addr0) / m) by (apply Z.div_pos; lia). lia. }
  { exact Hfuel. }
  assert (Hunfold :
    erase base (Some segments) fuel startAddr length w
    = (eraseLoop base (Some segments) fuel endAddr (endAddr - addr0)
         (mkErase (Some s0) (Num addr0) 0) ;;; ret tt) w0).
  { unfold erase. unfold bind at 1, lift at 1. cbn [getSegment]. rewrite E0.
    unfold bind at 1, lift at 1.
    cbn [getSectorStart ofOption]. cbn [getSectorStart getSegment] in Hstart.
    rewrite E0 in Hstart. injection Hstart as ->.
    unfold bind at 1, lift at 1. rewrite Hend.
    destruct (Z.ltb_spec 0 (endAddr - addr0)); [|lia].
    unfold bind at 1. unfold logProgress, emit. reflexivity. }
  rewrite Hunfold. unfold bind, ret. rewrite E.
  destruct r as [st'|e|].
  - exists (Ok tt), w'. split; [reflexivity|].
    destruct Hr as [_ [Hw [Hlast _]]]. split.
    + rewrite Hw. unfold w0. cbn [trace]. rewrite deviceWrites_app.
      cbn. now rewrite app_nil_r.
    + destruct (Hlast Hspan) as [t Ht].
      exists (LogProgress 0 (endAddr - addr0) :: t).
      rewrite Ht. unfold w0. cbn [trace]. now rewrite <- app_assoc.
  - exists (Throw e), w'. split; [reflexivity|exact Hr].
  - contradiction.
Qed.

Section EraseEnd.

Variable segments : list DFUseMemorySegment.
Variables addr0 endAddr : Z.
Hypothesis Hno : nonOverlapping segments.
Hypothesis Hne : nonEmpty segments.
Hypothesis Hdiv : sectorsDivide segments.
Hypothesis Hcov : covered segments addr0 endAddr.
Hypothesis Hend : exists sL, In sL segments /\ start sL < endAddr <= end_ sL /\
                             (endAddr - start sL) mod sectorSize sL = 0.
Context {D : Type}.
Variable base : Transport D.
Variable m : Z.
Hypothesis Hm : 0 < m.
Hypothesis Hmin : forall s, In s segments -> m <= sectorSize s.

(** The loop leaves only by its test: with fuel for
    [(endAddr - addr) / m] turns it does not run out of fuel, it throws only
    what a command threw, and when it returns [addr] has reached
    [endAddr]. *)
Lemma eraseLoop_reaches_end (n : nat) :
  forall (s : DFUseMemorySegment) (addr be : Z) (w : world D) (fuel : nat),
    eraseInv segments addr0 s addr ->
    be = Z.min (addr - addr0) (endAddr - addr0) ->
    (endAddr - addr) / m <= Z.of_nat n -> (n <= fuel)%nat ->
    exists r w',
      eraseLoop base (Some segments) fuel endAddr (endAddr - addr0)
        (mkErase (Some s) (Num addr) be) w = (r, w') /\
      match r with
      | Diverge => False
      | Throw e =>
          exists x w0, dfuseCommand base ERASE_SECTOR (Num x) 4 w0 = (Throw e, w')
      | Ok st' =>
          exists addr', er_addr st' = Num addr' /\ endAddr <= addr' /\
                        addr <= addr'
      end.
Proof.
  induction n as [|n IH]; intros s addr be w fuel Hinv Hbe Hn Hfuel.
  - assert (Hge : endAddr <= addr).
    { destruct (Z.le_gt_cases endAddr addr) as [|Hlt]; [assumption|]. exfalso.
      destruct (resolve_segment segments addr0 endAddr Hno Hne Hdiv Hcov
                  s addr Hinv Hlt) as [s' [_ [Hs' [Ha Hal]]]].
      destruct (sector_room segments endAddr Hno Hne Hdiv Hend s' addr
                  Hs' Ha Hal Hlt) as [_ Hroom].
      pose proof (Hmin s' Hs').
      assert (1 <= (endAddr - addr) / m) by (apply Z.div_le_lower_bound; lia).
      lia. }
    eexists. eexists.
    split; [now apply (eraseLoop_exit segments endAddr base fuel _ _ addr)|].
    exists addr. cbn [er_addr]. split; [reflexivity|lia].
  - destruct (Z.le_gt_cases endAddr addr) as [Hge|Hlt].
    + eexists. eexists.
      split; [now apply (eraseLoop_exit segments endAddr base fuel _ _ addr)|].
      exists addr. cbn [er_addr]. split; [reflexivity|lia].
    + destruct fuel as [|fuel]; [lia|].
      cbn [eraseLoop er_addr er_segment er_bytesErased].
      destruct (Z.ltb_spec addr endAddr) as [_|]; [|lia].
      destruct (eraseIter_step segments addr0 endAddr Hno Hne Hdiv Hcov Hend
                  base m Hmin s addr be w Hinv Hlt Hbe)
        as [[e [w1 [E1 Hcmd]]]
           |[s' [addr' [be' [w1 [X [t [E1 [Hinv' [Hadv [Hbe' _]]]]]]]]]]].
      * exists (Throw e), w1. split; [now rewrite (bind_Throw _ _ _ _ _ E1)|].
        exact Hcmd.
      * rewrite (bind_Ok _ _ _ _ _ E1).
        assert (Hn' : (endAddr - addr') / m <= Z.of_nat n).
        { assert ((endAddr - addr') / m <= (endAddr - addr - m) / m)
            by (apply Z.div_le_mono; lia).
          replace (endAddr - addr - m) with (endAddr - addr + (-1) * m) in * by lia.
          rewrite Z.div_add in * by lia. lia. }
        destruct (IH s' addr' be' w1 fuel Hinv' Hbe' Hn' ltac:(lia))
          as [r [w2 [E2 Hr]]].
        exists r, w2. split; [exact E2|].
        destruct r as [st'|e|]; [|exact Hr|exact Hr].
        destruct Hr as [a' [Ha' [Hge' Hle']]].
        exists a'. split; [exact Ha'|]. lia.
Qed.

End EraseEnd.

(** [erase] on a covered span is its loop, entered at the sector boundary
    [addr] with the segment of the first byte, after the first progress
    report. *)
Lemma erase_loop_form {D : Type} (base : Transport D)
    (segments : list DFUseMemorySegment)
    (startAddr length addr0 endAddr : Z) (fuel : nat) (w : world D) :
  nonOverlapping segments -> nonEmpty segments -> sectorsDivide segments ->
  1 <= length -> covered segments startAddr (startAddr + length) ->
  getSectorStart (Some segments) startAddr Undefined = Ok (Num addr0) ->
  getSectorEnd (Some segments) (startAddr + length - 1) Undefined
  = Ok (Num endAddr) ->
  exists s0,
    findSegment segments startAddr = Some s0 /\
    erase base (Some segments) fuel startAddr length w
    = (eraseLoop base (Some segments) fuel endAddr (endAddr - addr0)
         (mkErase (Some s0) (Num addr0) 0) ;;; ret tt)
        (mkWorld (device w) (trace w ++ [LogProgress 0 (endAddr - addr0)])).
Proof.
  intros Hno Hne Hdiv Hlen Hcov Hstart Hend.
  destruct (erase_range segments startAddr length addr0 endAddr
              Hno Hne Hdiv Hlen Hcov Hstart Hend)
    as [s0 [E0 [_ [Hlo [Hhi _]]]]].
  exists s0. split; [exact E0|].
  unfold erase. unfold bind at 1, lift at 1. cbn [getSegment]. rewrite E0.
  unfold bind at 1, lift at 1.
  cbn [getSectorStart ofOption]. cbn [getSectorStart getSegment] in Hstart.
  rewrite E0 in Hstart. injection Hstart as ->.
  unfold bind at 1, lift at 1. rewrite Hend.
  destruct (Z.ltb_spec 0 (endAddr - addr0)); [|lia].
  unfold bind at 1. unfold logProgress, emit. reflexivity.
Qed.

(** C3 (amended): for a map whose segments are sorted, do not overlap, are
    not empty and have a positive [sectorSize] that divides their length,
    and a range of at least one byte every byte of which lies in some
    segment, the loop of [erase] terminates, whatever the device answers.
    [erase] is its loop, entered with [addr < endAddr]; with fuel for
    [(endAddr - addr) / m] turns, where [m] is a positive lower bound of the
    sector sizes of the map (the sector size itself when there is only
    one), the loop does not run out of fuel: it throws what a command threw,
    or it returns with [addr >= endAddr], and [erase] returns or throws
    with it.  Every turn that returns moves [addr] forward, by one sector of
    an erasable segment or to the end of a segment that is not erasable. *)
Theorem erase_terminates {D : Type} (base : Transport D)
    (segments : list DFUseMemorySegment)
    (startAddr length addr0 endAddr m : Z) (fuel : nat) (w : world D) :
  sortedByStart segments -> nonOverlapping segments -> nonEmpty segments ->
  sectorsDivide segments ->
  1 <= length -> covered segments startAddr (startAddr + length) ->
  getSectorStart (Some segments) startAddr Undefined = Ok (Num addr0) ->
  getSectorEnd (Some segments) (startAddr + length - 1) Undefined
  = Ok (Num endAddr) ->
  0 < m -> (forall s, In s segments -> m <= sectorSize s) ->
  (Z.to_nat ((endAddr - addr0) / m) <= fuel)%nat ->
  addr0 < endAddr /\
  fst (erase base (Some segments) fuel startAddr length w) <> Diverge /\
  (exists s0 r w',
      findSegment segments startAddr = Some s0 /\
      eraseLoop base (Some segments) fuel endAddr (endAddr - addr0)
        (mkErase (Some s0) (Num addr0) 0)
        (mkWorld (device w) (trace w ++ [LogProgress 0 (endAddr - addr0)]))
      = (r, w') /\
      match r with
      | Diverge => False
      | Throw e =>
          erase base (Some segments) fuel startAddr length w = (Throw e, w') /\
          exists x w0, dfuseCommand base ERASE_SECTOR (Num x) 4 w0 = (Throw e, w')
      | Ok st' =>
          erase base (Some segments) fuel startAddr length w = (Ok tt, w') /\
          exists addr', er_addr st' = Num addr' /\ endAddr <= addr'
      end) /\
  (forall s addr be w0 st' w1,
      eraseInv segments addr0 s addr -> addr < endAddr ->
      eraseIter base (Some segments) (endAddr - addr0) (Some s) addr be w0
      = (Ok st', w1) ->
      exists s' addr',
        In s' segments /\ inside s' addr /\ er_addr st' = Num addr' /\
        addr + m <= addr' /\
        ((erasable s' = true /\ addr' = addr + sectorSize s') \/
         (erasable s' = false /\ addr' = end_ s'))).
Proof.
  intros _ Hno Hne Hdiv Hlen Hcov Hstart Hend Hm Hmin Hfuel.
  destruct (erase_range segments startAddr length addr0 endAddr
              Hno Hne Hdiv Hlen Hcov Hstart Hend)
    as [s0 [E0 [Hinv [Hlo [Hhi [Hcov' HendL]]]]]].
  destruct (erase_loop_form base segments startAddr length addr0 endAddr fuel w
              Hno Hne Hdiv Hlen Hcov Hstart Hend) as [s0' [E0' Hform]].
  rewrite E0 in E0'. injection E0' as <-.
  set (w0 := mkWorld (device w) (trace w ++ [LogProgress 0 (endAddr - addr0)]))
    in *.
  destruct (eraseLoop_reaches_end segments addr0 endAddr Hno Hne Hdiv Hcov' HendL
              base m Hm Hmin (Z.to_nat ((endAddr - addr0) / m))
              s0 addr0 0 w0 fuel Hinv)
    as [r [w' [E Hr]]].
  { rewrite Z.sub_diag. lia. }
  { assert (0 <= (endAddr - addr0) / m) by (apply Z.div_pos; lia). lia. }
  { exact Hfuel. }
  assert (Herase : erase base (Some segments) fuel startAddr length w
                   = (match r with
                      | Ok _ => Ok tt
                      | Throw e => Throw e
                      | Diverge => Diverge
                      end, w')).
  { rewrite Hform. unfold bind, ret. rewrite E. now destruct r. }
  split; [lia|]. split.
  { rewrite Herase. cbn [fst]. destruct r; [discriminate|discriminate|contradiction]. }
  split.
  - exists s0, r, w'. split; [exact E0|]. split; [exact E|].
    destruct r as [st'|e|]; [|split; [exact Herase|exact Hr]|contradiction].
    split; [exact Herase|].
    destruct Hr as [addr' [Ha [Hge _]]]. now exists addr'.
  - intros s addr be w1 st' w2.
    apply (eraseIter_advances segments addr0 endAddr Hno Hne Hdiv Hcov' HendL
             base m Hmin).
Qed.

Section OkDeviceErase.

Context {D : Type}.
Variable base : Transport D.
Hypothesis write_all : forall payload blockIndex d,
  fst (write base payload blockIndex d) = inr (Z.of_nat (length payload)).
Hypothesis poll_ok : forall p d,
  exists st, fst (poll_until base p d) = inr st /\ status st = STATUS_OK base.
Hypothesis poll_idle_ok : forall d,
  exists st, fst (poll_until_idle base d) = inr st /\ status st = STATUS_OK base.

(** C2 (amended): for a map whose segments are sorted, do not overlap, are
    not empty and have a positive [sectorSize] that divides their length,
    and a range of at least one byte every byte of which lies in some
    segment, on a device that accepts every command, [erase] sends one
    ERASE_SECTOR command for each sector of an erasable segment that
    begins in the sector-aligned span [addr, endAddr), in ascending order,
    and nothing for the segments that are not erasable; the last progress
    it reports is [endAddr - addr] out of [endAddr - addr]. *)
Theorem erase_sectors (segments : list DFUseMemorySegment)
    (startAddr length addr0 endAddr : Z) (fuel : nat) (w : world D) :
  sortedByStart segments -> nonOverlapping segments -> nonEmpty segments ->
  sectorsDivide segments ->
  1 <= length -> covered segments startAddr (startAddr + length) ->
  getSectorStart (Some segments) startAddr Undefined = Ok (Num addr0) ->
  getSectorEnd (Some segments) (startAddr + length - 1) Undefined
  = Ok (Num endAddr) ->
  (Z.to_nat (endAddr - addr0) <= fuel)%nat ->
  exists w',
    erase base (Some segments) fuel startAddr length w = (Ok tt, w') /\
    deviceWrites (trace w')
    = deviceWrites (trace w)
      ++ map (commandWrite ERASE_SECTOR)
           (erasableSectors segments addr0 endAddr) /\
    (forall x, In x (erasableSectors segments addr0 endAddr) <->
               addr0 <= x < endAddr /\
               exists s, In s segments /\ inside s x /\ erasable s = true /\
                         (x - start s) mod sectorSize s = 0) /\
    exists t, trace w'
              = trace w ++ t ++ [LogProgress (endAddr - addr0) (endAddr - addr0)].
Proof.
  intros _ Hno Hne Hdiv Hlen Hcov Hstart Hend Hfuel.
  assert (Hmin : forall s, In s segments -> 1 <= sectorSize s).
  { intros s Hs. destruct (segment_facts segments Hne Hdiv s Hs) as [_ [Hp _]].
    lia. }
  destruct (erase_run base segments startAddr length addr0 endAddr 1 fuel w
              Hno Hne Hdiv Hlen Hcov Hstart Hend ltac:(lia) Hmin)
    as [r [w' [E Hr]]]; [now rewrite Z.div_1_r|].
  destruct r as [[]|e|]; [|exfalso|contradiction].
  - exists w'. split; [exact E|]. destruct Hr as [Hw Hlast].
    split; [exact Hw|]. split; [|exact Hlast].
    intros x. unfold erasableSectors. rewrite filter_In. split.
    + intros [Hx Hs]. split; [now apply addresses_In|].
      unfold isErasableSector in Hs.
      destruct (findSegment segments x) as [s|] eqn:Ef; [|discriminate].
      destruct (findSegment_Some _ _ _ Ef) as [Hin Hins].
      apply andb_true_iff in Hs. destruct Hs as [He Ha].
      exists s. rewrite Z.eqb_eq in Ha.
      split; [exact Hin|]. split; [exact Hins|]. split; [exact He|exact Ha].
    + intros [Hx [s [Hin [Hins [He Ha]]]]]. split.
      * unfold addresses. apply in_map_iff. exists (Z.to_nat (x - addr0)).
        split; [lia|]. apply in_seq. lia.
      * unfold isErasableSector.
        rewrite (findSegment_unique segments x s Hno Hin Hins), He, Ha.
        reflexivity.
  - destruct Hr as [x [w0 Hthrow]].
    destruct (dfuseCommand_ok base write_all poll_ok ERASE_SECTOR x w0)
      as [w1 [Hok _]]; [unfold ERASE_SECTOR; lia|].
    rewrite Hok in Hthrow. discriminate.
Qed.

End OkDeviceErase.

(** On a map with a hole, the loop of [erase] falls back to address 0 and
    stays there. *)
Lemma gap_loop_diverges (fuel : nat) (w : world unit) :
  fst (eraseLoop okTransport (Some gapMap) fuel 0x2800 0x1800
         (mkErase None (Num 0) (-0x1000)) w) = Diverge.
Proof.
  revert w. induction fuel as [|fuel IH]; intros w; [reflexivity|].
  cbn [eraseLoop er_addr er_segment er_bytesErased].
  change (0 <? 0x2800) with true. cbv iota.
  unfold bind at 1.
  change (eraseIter okTransport (Some gapMap) 0x1800 None 0 (-0x1000) w)
    with (Ok (mkErase None (Num 0) (-0x1000)),
          mkWorld (device w) (trace w ++ [LogProgress (-0x1000) 0x1800])).
  apply IH.
Qed.

Lemma gap_erase_diverges (fuel : nat) :
  fst (erase okTransport (Some gapMap) fuel 0x1000 0x1800 emptyWorld) = Diverge.
Proof.
  destruct fuel as [|[|[|fuel]]]; try reflexivity.
  change (erase okTransport (Some gapMap) (S (S (S fuel))) 0x1000 0x1800 emptyWorld)
    with ((eraseLoop okTransport (Some gapMap) fuel 0x2800 0x1800
             (mkErase None (Num 0) (-0x1000)) ;;; ret tt)
            (mkWorld tt
               [LogProgress 0 0x1800;
                DevWrite [0x41; 0x00; 0x10; 0; 0] 0; DevPollUntil NotDnBusy;
                LogProgress 0x400 0x1800;
                DevWrite [0x41; 0x00; 0x14; 0; 0] 0; DevPollUntil NotDnBusy;
                LogProgress 0x800 0x1800;
                LogProgress (-0x1000) 0x1800])).
  unfold bind.
  pose proof (gap_loop_diverges fuel
                (mkWorld tt
                   [LogProgress 0 0x1800;
                    DevWrite [0x41; 0x00; 0x10; 0; 0] 0; DevPollUntil NotDnBusy;
                    LogProgress 0x400 0x1800;
                    DevWrite [0x41; 0x00; 0x14; 0; 0] 0; DevPollUntil NotDnBusy;
                    LogProgress 0x800 0x1800;
                    LogProgress (-0x1000) 0x1800])) as H.
  destruct (eraseLoop _ _ _ _ _ _ _) as [r w']. cbn [fst] in H. now subst r.
Qed.

(** ** The claims that fail as stated, on concrete inputs *)

Lemma oddMap_sorted : sortedByStart oddMap.
Proof. repeat constructor; simpl; lia. Qed.

Lemma oddMap_nonOverlapping : nonOverlapping oddMap.
Proof.
  repeat constructor. intros a [H1 H2]. unfold inside in *. simpl in *. lia.
Qed.

Lemma gapMap_sorted : sortedByStart gapMap.
Proof. repeat constructor; simpl; lia. Qed.

Lemma gapMap_nonOverlapping : nonOverlapping gapMap.
Proof.
  repeat constructor. intros a [H1 H2]. unfold inside in *. simpl in *. lia.
Qed.

(** C2, as stated, fails.  On [oddMap] (sorted, no overlap, sector size 4,
    first and last byte of [0, 20) inside a segment) the span is
    [0, 22) and the last progress reported is 24; on [gapMap] the range
    [0x1000, 0x2800) has its first and last byte in a segment and [erase]
    never returns, whatever the fuel. *)
Lemma erase_progress_counterexample :
  (sortedByStart oddMap /\ nonOverlapping oddMap /\
   getSectorStart (Some oddMap) 0 Undefined = Ok (Num 0) /\
   getSectorEnd (Some oddMap) (0 + 20 - 1) Undefined = Ok (Num 22) /\
   exists t w',
     erase okTransport (Some oddMap) 8 0 20 emptyWorld = (Ok tt, w') /\
     trace w' = t ++ [LogProgress 24 22]) /\
  (sortedByStart gapMap /\ nonOverlapping gapMap /\
   getSectorStart (Some gapMap) 0x1000 Undefined = Ok (Num 0x1000) /\
   getSectorEnd (Some gapMap) (0x1000 + 0x1800 - 1) Undefined = Ok (Num 0x2800) /\
   forall fuel,
     fst (erase okTransport (Some gapMap) fuel 0x1000 0x1800 emptyWorld) = Diverge).
Proof.
  split.
  - split; [exact oddMap_sorted|]. split; [exact oddMap_nonOverlapping|].
    split; [reflexivity|]. split; [reflexivity|].
    exists (removelast
              (trace (snd (erase okTransport (Some oddMap) 8 0 20 emptyWorld)))),
           (snd (erase okTransport (Some oddMap) 8 0 20 emptyWorld)).
    split; vm_compute; reflexivity.
  - split; [exact gapMap_sorted|]. split; [exact gapMap_nonOverlapping|].
    split; [reflexivity|]. split; [reflexivity|]. exact gap_erase_diverges.
Qed.

(** C3, as stated, fails.  On [gapMap] the loop does not terminate: its
    third turn takes [addr] from 0x1800 back to 0, where it stays.  On
    [oddMap], erasing [8, 14) takes two turns although
    [(endAddr - addr) / sectorSize = (14 - 8) / 4 = 1]. *)
Lemma erase_loop_counterexample :
  (forall fuel,
     fst (erase okTransport (Some gapMap) fuel 0x1000 0x1800 emptyWorld) = Diverge) /\
  fst (eraseIter okTransport (Some gapMap) 0x1800
         (Some (mkSegment 0x1000 0x1800 0x400 true true true)) 0x1800 0x800
         emptyWorld)
  = Ok (mkErase None (Num 0) (-0x1000)) /\
  (getSectorStart (Some oddMap) 8 Undefined = Ok (Num 8) /\
   getSectorEnd (Some oddMap) (8 + 6 - 1) Undefined = Ok (Num 14) /\
   fst (erase okTransport (Some oddMap) 1 8 6 emptyWorld) = Diverge /\
   fst (erase okTransport (Some oddMap) 2 8 6 emptyWorld) = Ok tt).
Proof.
  split; [exact gap_erase_diverges|]. split; [reflexivity|].
  repeat split; reflexivity.
Qed.

(** C4, as stated, fails for a length that is not a buffer length: with
    [len = -1] the buffer has no byte and the store of the command byte
    throws a [RangeError]; with [len = 2^53 - 1] the allocation of the
    buffer throws it; in neither case is the unsupported-length error
    reached. *)
Lemma dfuseCommand_negative_length_counterexample :
  dfuseCommand okTransport SET_ADDRESS (Num 0) (-1) emptyWorld
  = (Throw RangeError, emptyWorld) /\
  dfuseCommand okTransport SET_ADDRESS (Num 0) 9007199254740991 emptyWorld
  = (Throw RangeError, emptyWorld) /\
  ~ (forall c p len w, len <> 1 -> len <> 4 ->
       dfuseCommand okTransport c (Num p) len w
       = (Throw (UnsupportedParamLength len), w)).
Proof.
  split; [reflexivity|]. split; [reflexivity|]. intros H.
  specialize (H SET_ADDRESS 0 (-1) emptyWorld ltac:(lia) ltac:(lia)).
  discriminate H.
Qed.

(** C8, as stated, fails for a sector size of 0: the division gives no
    integer and [getSectorStart] is [NaN], which is not [<= a]. *)
Lemma sector_bounds_zero_counterexample :
  findSegment zeroSectorMap 0x1800
  = Some (mkSegment 0x1000 0x2000 0 true true true) /\
  getSectorStart (Some zeroSectorMap) 0x1800 Undefined = Ok NaN /\
  getSectorEnd (Some zeroSectorMap) 0x1800 Undefined = Ok NaN /\
  ~ (exists x, getSectorStart (Some zeroSectorMap) 0x1800 Undefined = Ok (Num x) /\
               x <= 0x1800).
Proof.
  split; [reflexivity|]. split; [reflexivity|]. split; [reflexivity|].
  intros [x [H _]]. discriminate H.
Qed.

(** ** The theorems at work on the sample map *)

Lemma sampleMap_sorted : sortedByStart sampleMap.
Proof. repeat constructor; simpl; lia. Qed.

Lemma sampleMap_nonOverlapping : nonOverlapping sampleMap.
Proof.
  repeat constructor. intros a [H1 H2]. unfold inside in *. simpl in *. lia.
Qed.

Lemma sampleMap_nonEmpty : nonEmpty sampleMap.
Proof. repeat constructor; simpl; lia. Qed.

Lemma sampleMap_sectorsDivide : sectorsDivide sampleMap.
Proof. repeat constructor; simpl; try lia; reflexivity. Qed.

Lemma sampleMap_covered (lo hi : Z) :
  0x1000 <= lo -> hi <= 0x4000 -> covered sampleMap lo hi.
Proof.
  intros Hlo Hhi x Hx. destruct (Z.lt_ge_cases x 0x2000).
  - exists bootSegment. split; [now left|]. unfold inside. simpl. lia.
  - exists flashSegment. split; [right; now left|]. unfold inside. simpl. lia.
Qed.

Lemma okTransport_write_all (payload : list Z) (blockIndex : Z) (d : unit) :
  fst (write okTransport payload blockIndex d) = inr (Z.of_nat (length payload)).
Proof. reflexivity. Qed.

Lemma okTransport_poll_ok (p : pollPredicate) (d : unit) :
  exists st, fst (poll_until okTransport p d) = inr st /\
             status st = STATUS_OK okTransport.
Proof. exists okStatus. split; reflexivity. Qed.

Lemma okTransport_poll_idle_ok (d : unit) :
  exists st, fst (poll_until_idle okTransport d) = inr st /\
             status st = STATUS_OK okTransport.
Proof. exists okStatus. split; reflexivity. Qed.

Lemma getSegment_correct_witness :
  getSegment (Some sampleMap) 0x2100 = Ok (Some flashSegment) /\
  getSegment (Some sampleMap) 0x10 = Ok None.
Proof.
  split.
  - apply (proj1 (getSegment_correct sampleMap 0x2100
                    sampleMap_sorted sampleMap_nonOverlapping)).
    + right. now left.
    + unfold inside. simpl. lia.
  - apply (proj1 (proj2 (getSegment_correct sampleMap 0x10
                           sampleMap_sorted sampleMap_nonOverlapping))).
    intros s [<-|[<-|[]]]; unfold inside; simpl; lia.
Defined.

Lemma sector_bounds_witness :
  exists s x,
    getSegment (Some sampleMap) 0x2900 = Ok (Some s) /\
    getSectorStart (Some sampleMap) 0x2900 Undefined = Ok (Num x) /\
    x <= 0x2900 < x + sectorSize s /\
    getSectorEnd (Some sampleMap) 0x2900 Undefined = Ok (Num (x + sectorSize s)) /\
    ((0x2900 - start s) mod sectorSize s = 0 ->
     getSectorEnd (Some sampleMap) 0x2900 Undefined
     = Ok (Num (0x2900 + sectorSize s))).
Proof.
  apply (sector_bounds sampleMap 0x2900).
  - exists flashSegment. split; [right; now left|]. unfold inside. simpl. lia.
  - intros s [<-|[<-|[]]]; simpl; lia.
Defined.

Lemma erase_outside_map_witness :
  erase okTransport (Some sampleMap) 8 0x10 4 emptyWorld
  = (Throw (AddressOutsideMemoryMap 0x10), emptyWorld) /\
  fst (erase okTransport (Some sampleMap) 8 0x10 4 emptyWorld)
  <> Throw UnknownSegment.
Proof.
  apply (erase_outside_map okTransport sampleMap 8 0x10 4 emptyWorld).
  intros s [<-|[<-|[]]]; unfold inside; simpl; lia.
Defined.

Lemma erase_empty_range_throws_witness :
  exists a, erase okTransport (Some sampleMap) 8 0x1000 0 emptyWorld
            = (Throw (AddressOutsideMemoryMap a), emptyWorld).
Proof.
  apply (proj1 (erase_empty_range_throws okTransport sampleMap 8 0x1000
                  emptyWorld eq_refl)).
Defined.

Lemma dfuseCommand_payload_witness :
  commandPayload SET_ADDRESS (Num 0x08001234) 1 = Ok [SET_ADDRESS; 0x34] /\
  dfuseCommand okTransport SET_ADDRESS (Num 0x08001234) 2 emptyWorld
  = (Throw (UnsupportedParamLength 2), emptyWorld) /\
  dfuseCommand okTransport SET_ADDRESS (Num 0x08001234) (-3) emptyWorld
  = (Throw RangeError, emptyWorld).
Proof.
  assert (Hc : 0 <= SET_ADDRESS < 256) by (unfold SET_ADDRESS; lia).
  split; [|split].
  - apply (proj1 (dfuseCommand_payload okTransport SET_ADDRESS 0x08001234 1
                    emptyWorld Hc) eq_refl).
  - apply (proj1 (proj2 (proj2 (proj2 (dfuseCommand_payload okTransport
                                         SET_ADDRESS 0x08001234 2 emptyWorld
                                         Hc)))));
      unfold maxByteLength; lia.
  - apply (proj2 (proj2 (proj2 (proj2 (dfuseCommand_payload okTransport
                                         SET_ADDRESS 0x08001234 (-3) emptyWorld
                                         Hc))))).
    left. lia.
Defined.

Lemma getMaxReadSize_spec_witness :
  getMaxReadSize (Some sampleMap) 0x1800 = Ok (maxReadSpec sampleMap 0x1800) /\
  maxReadSpec sampleMap 0x1800 = 0x2800.
Proof.
  split; [|reflexivity].
  apply (proj1 (getMaxReadSize_spec sampleMap 0x1800 sampleMap_sorted
                  sampleMap_nonOverlapping sampleMap_nonEmpty)).
Defined.

Lemma do_write_start_address_witness :
  do_write okTransport (Some sampleMap) (Some 0x10) 8 4 [1; 2; 3] emptyWorld
  = (Throw (AddressOutsideMemoryMap 0x10),
     mkWorld tt [LogInfo ErasingMemory; LogError (StartAddressOutside 0x10)]) /\
  do_write okTransport (Some sampleMap) None 8 4 [1; 2; 3] emptyWorld
  = (emit (LogInfo ErasingMemory) ;;;
     emit (LogWarning (InferredStartAddress 0x1000)) ;;;
     writeFrom okTransport (Some sampleMap) 8 4 [1; 2; 3] 0x1000) emptyWorld.
Proof.
  split.
  - apply (proj1 (proj2 (do_write_start_address okTransport sampleMap 8 4
                           [1; 2; 3] emptyWorld)) 0x10 eq_refl).
  - apply (proj2 (proj2 (do_write_start_address okTransport sampleMap 8 4
                           [1; 2; 3] emptyWorld)) bootSegment [flashSegment]
             eq_refl).
    simpl. lia.
Defined.

Lemma erase_sectors_witness :
  exists w',
    erase okTransport (Some sampleMap) 3072 0x1c10 0x900 emptyWorld = (Ok tt, w') /\
    deviceWrites (trace w')
    = deviceWrites (trace emptyWorld)
      ++ map (commandWrite ERASE_SECTOR) (erasableSectors sampleMap 0x1c00 0x2800) /\
    (forall x, In x (erasableSectors sampleMap 0x1c00 0x2800) <->
               0x1c00 <= x < 0x2800 /\
               exists s, In s sampleMap /\ inside s x /\ erasable s = true /\
                         (x - start s) mod sectorSize s = 0) /\
    exists t, trace w'
              = trace emptyWorld ++ t
                ++ [LogProgress (0x2800 - 0x1c00) (0x2800 - 0x1c00)].
Proof.
  apply (erase_sectors okTransport okTransport_write_all okTransport_poll_ok
           sampleMap 0x1c10 0x900 0x1c00 0x2800 3072 emptyWorld
           sampleMap_sorted sampleMap_nonOverlapping sampleMap_nonEmpty
           sampleMap_sectorsDivide).
  - lia.
  - apply sampleMap_covered; lia.
  - reflexivity.
  - reflexivity.
  - vm_compute. lia.
Defined.

Lemma erase_terminates_witness :
  0x1c00 < 0x2800 /\
  fst (erase okTransport (Some sampleMap) 3 0x1c10 0x900 emptyWorld) <> Diverge /\
  (exists s0 r w',
      findSegment sampleMap 0x1c10 = Some s0 /\
      eraseLoop okTransport (Some sampleMap) 3 0x2800 (0x2800 - 0x1c00)
        (mkErase (Some s0) (Num 0x1c00) 0)
        (mkWorld (device emptyWorld)
           (trace emptyWorld ++ [LogProgress 0 (0x2800 - 0x1c00)]))
      = (r, w') /\
      match r with
      | Diverge => False
      | Throw e =>
          erase okTransport (Some sampleMap) 3 0x1c10 0x900 emptyWorld
          = (Throw e, w') /\
          exists x w0,
            dfuseCommand okTransport ERASE_SECTOR (Num x) 4 w0 = (Throw e, w')
      | Ok st' =>
          erase okTransport (Some sampleMap) 3 0x1c10 0x900 emptyWorld
          = (Ok tt, w') /\
          exists addr', er_addr st' = Num addr' /\ 0x2800 <= addr'
      end) /\
  (forall s addr be w0 st' w1,
      eraseInv sampleMap 0x1c00 s addr -> addr < 0x2800 ->
      eraseIter okTransport (Some sampleMap) (0x2800 - 0x1c00) (Some s) addr be w0
      = (Ok st', w1) ->
      exists s' addr',
        In s' sampleMap /\ inside s' addr /\ er_addr st' = Num addr' /\
        addr + 0x400 <= addr' /\
        ((erasable s' = true /\ addr' = addr + sectorSize s') \/
         (erasable s' = false /\ addr' = end_ s'))).
Proof.
  apply (erase_terminates okTransport sampleMap 0x1c10 0x900 0x1c00 0x2800
           0x400 3 emptyWorld
           sampleMap_sorted sampleMap_nonOverlapping sampleMap_nonEmpty
           sampleMap_sectorsDivide).
  - lia.
  - apply sampleMap_covered; lia.
  - reflexivity.
  - reflexivity.
  - lia.
  - intros s [<-|[<-|[]]]; simpl; lia.
  - vm_compute. lia.
Defined.

(** ** Further properties of the memory map model *)

(** [getFirstWritableSegment] (lines 70-82): without a map it throws the
    no-memory-map error; with one, it returns a segment exactly when that
    segment is writable and no segment before it in the map is, and [null]
    exactly when no segment is writable. *)
Theorem getFirstWritableSegment_first (segments : list DFUseMemorySegment) :
  getFirstWritableSegment None = Throw NoMemoryMapInformation /\
  (forall s,
      getFirstWritableSegment (Some segments) = Ok (Some s) <->
      exists before after,
        segments = before ++ s :: after /\ writable s = true /\
        forall t, In t before -> writable t = false) /\
  (getFirstWritableSegment (Some segments) = Ok None <->
   forall t, In t segments -> writable t = false).
Proof.
  split; [reflexivity|]. unfold getFirstWritableSegment. split.
  - intros s. split.
    + intros [= H]. induction segments as [|u l IH]; [discriminate|].
      simpl in H. destruct (writable u) eqn:Eu.
      * injection H as <-. exists [], l. repeat split; [assumption|intros t []].
      * destruct (IH H) as [before [after [-> [Hs Hb]]]].
        exists (u :: before), after. repeat split; [assumption|].
        intros t [<-|Ht]; [assumption|now apply Hb].
    + intros [before [after [-> [Hs Hb]]]]. f_equal.
      induction before as [|u l IH]; simpl.
      * now rewrite Hs.
      * rewrite (Hb u) by now left. apply IH. intros t Ht. apply Hb. now right.
  - split.
    + intros [= H] t Ht. destruct (writable t) eqn:Et; [|reflexivity].
      now rewrite (find_none _ _ H t Ht) in Et.
    + intros H. f_equal. induction segments as [|u l IH]; [reflexivity|].
      simpl. rewrite (H u) by now left. apply IH. intros t Ht. apply H. now right.
Qed.

(** Sector arithmetic with an explicit segment (lines 48-68), for a
    positive sector size and any address, inside the segment or not:
    [getSectorStart] is idempotent, [getSectorEnd] is the same for an
    address and for the start of its sector, and [getSectorStart] is
    monotone.  The memory map is not consulted. *)
Theorem sector_start_idempotent (mi : memoryInfo) (s : DFUseMemorySegment)
    (a b : Z) :
  0 < sectorSize s ->
  exists x y,
    getSectorStart mi a (Segment s) = Ok (Num x) /\
    getSectorStart mi x (Segment s) = Ok (Num x) /\
    getSectorEnd mi x (Segment s) = getSectorEnd mi a (Segment s) /\
    getSectorStart mi b (Segment s) = Ok (Num y) /\
    (a <= b -> x <= y).
Proof.
  intros Hp. cbn [getSectorStart getSectorEnd].
  unfold sectorStartOf, sectorEndOf, sectorIndex.
  destruct (Z.eqb_spec (sectorSize s) 0); [lia|].
  do 2 eexists. split; [reflexivity|].
  replace (start s + (a - start s) / sectorSize s * sectorSize s - start s)
    with ((a - start s) / sectorSize s * sectorSize s) by lia.
  rewrite Z.div_mul by lia.
  split; [reflexivity|]. split; [reflexivity|]. split; [reflexivity|].
  intros Hab.
  assert ((a - start s) / sectorSize s <= (b - start s) / sectorSize s)
    by (apply Z.div_le_mono; lia).
  nia.
Qed.

Lemma sector_start_idempotent_witness :
  exists x y,
    getSectorStart None 0x2900 (Segment flashSegment) = Ok (Num x) /\
    getSectorStart None x (Segment flashSegment) = Ok (Num x) /\
    getSectorEnd None x (Segment flashSegment)
    = getSectorEnd None 0x2900 (Segment flashSegment) /\
    getSectorStart None 0x3abc (Segment flashSegment) = Ok (Num y) /\
    (0x2900 <= 0x3abc -> x <= y).
Proof.
  apply (sector_start_idempotent None flashSegment 0x2900 0x3abc). simpl. lia.
Defined.

(** Every byte that [getMaxReadSize] counts is readable: in a map without
    overlaps, each address of [startAddr, startAddr + getMaxReadSize
    startAddr) lies in a readable segment (whatever the order of the
    segments). *)
Lemma maxReadLoop_readable (segments l : list DFUseMemorySegment)
    (startAddr n : Z) :
  (forall t, In t l -> In t segments) ->
  (forall x, startAddr <= x < startAddr + n ->
             exists s, In s segments /\ inside s x /\ readable s = true) ->
  (0 < n -> forall t, In t l -> ~ inside t startAddr) ->
  ForallOrdPairs (fun s t => forall a, ~ (inside s a /\ inside t a)) l ->
  forall x, startAddr <= x < startAddr + maxReadLoop l startAddr n ->
            exists s, In s segments /\ inside s x /\ readable s = true.
Proof.
  revert n. induction l as [|t l IH]; intros n Hsub Hcov Hfirst Hno; simpl;
    [exact Hcov|].
  inversion Hno as [|? ? Ht Hl]; subst. rewrite Forall_forall in Ht.
  destruct (contains t startAddr) eqn:Ec.
  - apply contains_inside in Ec.
    assert (Hn : n <= 0).
    { destruct (Z.lt_ge_cases 0 n) as [Hpos|]; [|lia].
      exfalso. apply (Hfirst Hpos t); [now left|assumption]. }
    destruct (readable t) eqn:Er; [|intros x Hx; lia].
    apply IH.
    + intros u Hu. apply Hsub. now right.
    + intros x Hx. exists t. split; [apply Hsub; now left|].
      split; [unfold inside in *; lia|assumption].
    + intros _ u Hu Hin. apply (Ht u Hu startAddr). now split.
    + assumption.
  - apply contains_outside in Ec.
    destruct (Z.eqb_spec (start t) (startAddr + n)) as [E|E].
    + destruct (readable t) eqn:Er; [|exact Hcov].
      apply IH.
      * intros u Hu. apply Hsub. now right.
      * intros x Hx. destruct (Z.lt_ge_cases x (startAddr + n)) as [Hlt|Hge].
        -- apply Hcov. lia.
        -- exists t. split; [apply Hsub; now left|].
           split; [unfold inside; lia|assumption].
      * intros Hpos u Hu. destruct (Z.lt_ge_cases 0 n) as [Hn|Hn].
        -- apply Hfirst; [assumption|now right].
        -- intros Hin.
           (* the run began with [t] itself, which would contain [startAddr] *)
           apply Ec. unfold inside. lia.
      * assumption.
    + apply IH.
      * intros u Hu. apply Hsub. now right.
      * exact Hcov.
      * intros Hpos u Hu. apply Hfirst; [assumption|now right].
      * assumption.
Qed.

Theorem getMaxReadSize_readable (segments : list DFUseMemorySegment)
    (startAddr n : Z) :
  nonOverlapping segments ->
  getMaxReadSize (Some segments) startAddr = Ok n ->
  forall x, startAddr <= x < startAddr + n ->
            exists s, In s segments /\ inside s x /\ readable s = true.
Proof.
  intros Hno [= <-].
  apply (maxReadLoop_readable segments segments startAddr 0).
  - auto.
  - intros x Hx. lia.
  - intros H. lia.
  - exact Hno.
Qed.

Lemma getMaxReadSize_readable_witness :
  exists s, In s unsortedMap /\ inside s 0x2800 /\ readable s = true.
Proof.
  apply (getMaxReadSize_readable unsortedMap 0x1000 0x2000).
  - repeat constructor; intros a [H1 H2]; unfold inside in *; simpl in *; lia.
  - reflexivity.
  - lia.
Defined.

(** ** Further properties of the command codec *)

Section AnyDevice.

Context {D : Type}.
Variable base : Transport D.

Lemma baseWrite_eq (payload : list Z) (blockIndex : Z) (w : world D) r d :
  write base payload blockIndex (device w) = (r, d) ->
  baseWrite base payload blockIndex w
  = (ofSum r, mkWorld d (trace w ++ [DevWrite payload blockIndex])).
Proof. unfold baseWrite. now intros ->. Qed.


Lemma basePollUntilIdle_eq (w : world D) r d :
  poll_until_idle base (device w) = (r, d) ->
  basePollUntilIdle base w = (ofSum r, mkWorld d (trace w ++ [DevPollUntilIdle])).
Proof. unfold basePollUntilIdle. now intros ->. Qed.

Lemma commandPayload_address (command x : Z) :
  0 <= command < 256 ->
  commandPayload command (Num x) 4 = Ok (command :: le32 (x mod 2 ^ 32)).
Proof.
  intros Hc.
  assert (Hcm : command mod 2 ^ 8 = command) by (apply Z.mod_small; simpl; lia).
  unfold commandPayload, setUint8, setUint32LE. cbn -[Z.modulo Z.pow le32].
  now rewrite Hcm.
Qed.

(** What a four-byte command does, from the answers of the base class. *)
Lemma dfuseCommand_run (command x : Z) (w : world D) :
  0 <= command < 256 ->
  dfuseCommand base command (Num x) 4 w
  = match write base (command :: le32 (x mod 2 ^ 32)) 0 (device w) with
    | (inl e, d) =>
        (Throw (SpecialCommandError command e),
         mkWorld d (trace w ++ [commandWrite command x]))
    | (inr _, d) =>
        match poll_until base NotDnBusy d with
        | (inl e, d') =>
            (Throw e,
             mkWorld d' (trace w ++ [commandWrite command x; DevPollUntil NotDnBusy]))
        | (inr st, d') =>
            (if status st =? STATUS_OK base then Ok tt
             else Throw (SpecialCommandFailed command),
             mkWorld d' (trace w ++ [commandWrite command x; DevPollUntil NotDnBusy]))
        end
    end.
Proof.
  intros Hc.
  unfold dfuseCommand, bind, lift, tryCatch, ret, throw, baseWrite, basePollUntil.
  rewrite (commandPayload_address command x Hc). cbv beta iota.
  destruct (write base _ 0 (device w)) as [[e|n] d]; cbn [ofSum device trace];
    [reflexivity|].
  destruct (poll_until base NotDnBusy d) as [[e|st] d']; cbn [ofSum];
    rewrite <- app_assoc; [reflexivity|].
  destruct (status st =? STATUS_OK base); reflexivity.
Qed.

(** [dfuseCommand] with a four-byte parameter (lines 243-272): it calls
    [write] once, at block index 0; it polls, once, exactly when [write]
    returned; it returns normally exactly when [write] returned, whatever
    the number of bytes it reported, and the poll reported STATUS_OK.  An
    exception of [write] is wrapped in the special-command error, an
    exception of the poll is passed on as it is, and a status that is not
    OK gives the special-command-failed error. *)
Theorem dfuseCommand_protocol (command x : Z) (w : world D) :
  0 <= command < 256 ->
  let r := dfuseCommand base command (Num x) 4 w in
  let wr := write base (command :: le32 (x mod 2 ^ 32)) 0 (device w) in
  let pr := poll_until base NotDnBusy (snd wr) in
  (fst r = Ok tt <->
   exists n st, fst wr = inr n /\ fst pr = inr st /\ status st = STATUS_OK base) /\
  (forall e, fst wr = inl e ->
             r = (Throw (SpecialCommandError command e),
                  mkWorld (snd wr) (trace w ++ [commandWrite command x]))) /\
  (forall n, fst wr = inr n ->
             trace (snd r)
             = trace w ++ [commandWrite command x; DevPollUntil NotDnBusy] /\
             device (snd r) = snd pr /\
             (forall e, fst pr = inl e -> fst r = Throw e) /\
             (forall st, fst pr = inr st -> status st <> STATUS_OK base ->
                         fst r = Throw (SpecialCommandFailed command))).
Proof.
  intros Hc r wr pr. subst r wr pr.
  rewrite (dfuseCommand_run command x w Hc).
  destruct (write base _ 0 (device w)) as [[e|n] d]; cbn [fst snd].
  - split; [split; [discriminate|intros [n [st [H _]]]; discriminate]|].
    split; [intros e' [= <-]; reflexivity|intros n; discriminate].
  - destruct (poll_until base NotDnBusy d) as [[e|st] d']; cbn [fst snd].
    + split; [split; [discriminate|intros [n' [st [_ [H _]]]]; discriminate]|].
      split; [discriminate|]. intros n' _. cbn [trace device].
      split; [reflexivity|]. split; [reflexivity|].
      split; [intros e' [= <-]; reflexivity|discriminate].
    + destruct (Z.eqb_spec (status st) (STATUS_OK base)) as [E|E].
      * split; [split; [intros _; now exists n, st|reflexivity]|].
        split; [discriminate|]. intros n' _. cbn [trace device].
        split; [reflexivity|]. split; [reflexivity|].
        split; [discriminate|]. intros st' [= <-] Hne. contradiction.
      * split; [split; [discriminate|intros [n' [st' [_ [[= <-] H]]]]; contradiction]|].
        split; [discriminate|]. intros n' _. cbn [trace device].
        split; [reflexivity|]. split; [reflexivity|].
        split; [discriminate|]. reflexivity.
Qed.

End AnyDevice.

Lemma dfuseCommand_protocol_witness :
  fst (dfuseCommand deadTransport SET_ADDRESS (Num 0x2000) 4 emptyWorld)
  = Throw (SpecialCommandError SET_ADDRESS (TransportError 2)) /\
  (fst (dfuseCommand okTransport SET_ADDRESS (Num 0x2000) 4 emptyWorld) = Ok tt <->
   exists n st,
     fst (write okTransport (SET_ADDRESS :: le32 (0x2000 mod 2 ^ 32)) 0 tt) = inr n /\
     fst (poll_until okTransport NotDnBusy tt) = inr st /\
     status st = STATUS_OK okTransport).
Proof.
  assert (Hc : 0 <= SET_ADDRESS < 256) by (unfold SET_ADDRESS; lia).
  split.
  - rewrite (proj1 (proj2 (dfuseCommand_protocol deadTransport SET_ADDRESS 0x2000
                             emptyWorld Hc)) (TransportError 2) eq_refl).
    reflexivity.
  - exact (proj1 (dfuseCommand_protocol okTransport SET_ADDRESS 0x2000
                    emptyWorld Hc)).
Defined.

(** ** Further properties of [erase] and of the start of [do_write] *)

Section EraseEdges.

Context {D : Type}.
Variable base : Transport D.

(** [erase] with a sector size of 0 (lines 113-126): when the segment of
    the first byte or the segment of the last byte has [sectorSize = 0],
    [addr] or [endAddr] is [NaN], the comparisons of lines 122 and 126 are
    false, and [erase] returns without a command and without a progress
    report: nothing is erased. *)
Theorem erase_zero_sector_size (segments : list DFUseMemorySegment)
    (fuel : nat) (startAddr len : Z) (s0 sL : DFUseMemorySegment) (w : world D) :
  findSegment segments startAddr = Some s0 ->
  findSegment segments (startAddr + len - 1) = Some sL ->
  sectorSize s0 = 0 \/ sectorSize sL = 0 ->
  erase base (Some segments) fuel startAddr len w = (Ok tt, w).
Proof.
  intros E0 EL Hz. unfold erase, bind, lift. cbn [getSegment]. rewrite E0.
  cbn [ofOption getSectorStart getSectorEnd getSegment]. rewrite EL.
  unfold sectorStartOf, sectorEndOf, sectorIndex.
  destruct Hz as [Hz|Hz]; rewrite Hz; cbn [Z.eqb]; [reflexivity|].
  destruct (sectorSize s0 =? 0); reflexivity.
Qed.

(** A range that ends outside the map (line 114): when the first byte lies
    in a segment and the last byte in none, [erase] throws the
    address-outside-of-memory-map error for the last byte before it sends
    or logs anything; so [do_write] of an image that does not fit in the
    map throws with nothing sent to the device. *)
Theorem erase_end_outside (segments : list DFUseMemorySegment)
    (fuel : nat) (startAddr : Z) (data : list Z) (s0 : DFUseMemorySegment)
    (xfer_size : Z) (w : world D) :
  let len := Z.of_nat (length data) in
  findSegment segments startAddr = Some s0 ->
  findSegment segments (startAddr + len - 1) = None ->
  erase base (Some segments) fuel startAddr len w
  = (Throw (AddressOutsideMemoryMap (startAddr + len - 1)), w) /\
  fst (do_write base (Some segments) (Some startAddr) fuel xfer_size data w)
  = Throw (AddressOutsideMemoryMap (startAddr + len - 1)) /\
  deviceWrites (trace (snd (do_write base (Some segments) (Some startAddr)
                              fuel xfer_size data w)))
  = deviceWrites (trace w).
Proof.
  intros len E0 EL.
  assert (He : forall w0, erase base (Some segments) fuel startAddr len w0
                          = (Throw (AddressOutsideMemoryMap (startAddr + len - 1)), w0)).
  { intros w0. unfold erase, bind, lift. cbn [getSegment]. rewrite E0.
    cbn [ofOption getSectorStart getSectorEnd getSegment]. now rewrite EL. }
  split; [apply He|].
  unfold do_write, writeFrom, resolveStartAddress, bind, emit, lift, ret.
  cbn [getSegment]. rewrite E0. fold len. rewrite He. cbn [fst snd trace].
  split; [reflexivity|].
  rewrite deviceWrites_app. cbn. now rewrite app_nil_r.
Qed.

(** The inferred start address (lines 159-164): with the override unset,
    [do_write] throws the start-address-not-found error, after its first
    log line and before anything is sent, when the map has no segment and
    also when its first segment starts at address 0, which [!startAddress]
    takes for a missing value. *)
Theorem do_write_unset_start_zero (segments : list DFUseMemorySegment)
    (fuel : nat) (xfer_size : Z) (data : list Z) (w : world D) :
  segments = [] \/ (exists s rest, segments = s :: rest /\ start s = 0) ->
  do_write base (Some segments) None fuel xfer_size data w
  = (Throw StartAddressNotFound,
     mkWorld (device w) (trace w ++ [LogInfo ErasingMemory])).
Proof.
  intros [->|[s [rest [-> Hs]]]];
    unfold do_write, resolveStartAddress, bind, emit, throw; cbn [device trace].
  - reflexivity.
  - rewrite Hs. reflexivity.
Qed.

End EraseEdges.

Lemma erase_zero_sector_size_witness :
  erase okTransport (Some zeroSectorMap) 8 0x1800 0x100 emptyWorld
  = (Ok tt, emptyWorld).
Proof.
  apply (erase_zero_sector_size okTransport zeroSectorMap 8 0x1800 0x100
           (mkSegment 0x1000 0x2000 0 true true true)
           (mkSegment 0x1000 0x2000 0 true true true) emptyWorld);
    [reflexivity|reflexivity|now left].
Defined.

Lemma erase_end_outside_witness :
  fst (do_write okTransport (Some gapMap) (Some 0x17fe) 8 2 [1; 2; 3] emptyWorld)
  = Throw (AddressOutsideMemoryMap 0x1800) /\
  deviceWrites (trace (snd (do_write okTransport (Some gapMap) (Some 0x17fe) 8 2
                              [1; 2; 3] emptyWorld))) = [].
Proof.
  apply (proj2 (erase_end_outside okTransport gapMap 8 0x17fe [1; 2; 3]
                  (mkSegment 0x1000 0x1800 0x400 true true true) 2 emptyWorld
                  eq_refl eq_refl)).
Defined.

Lemma do_write_unset_start_zero_witness :
  do_write okTransport (Some oddMap) None 8 2 [1; 2; 3] emptyWorld
  = (Throw StartAddressNotFound, mkWorld tt [LogInfo ErasingMemory]).
Proof.
  apply (do_write_unset_start_zero okTransport oddMap 8 2 [1; 2; 3] emptyWorld).
  right. exists (mkSegment 0 10 4 true true true),
                [mkSegment 10 20 4 true true true]. now split.
Defined.

(** ** Further properties of the transfer loop and of manifestation *)

Section CountingDevice.

Context {D : Type}.
Variable base : Transport D.
(** [write] returns, with whatever byte count; the polls report status OK. *)
Hypothesis write_returns : forall payload blockIndex d,
  exists n, fst (write base payload blockIndex d) = inr n.
Hypothesis poll_ok : forall p d,
  exists st, fst (poll_until base p d) = inr st /\ status st = STATUS_OK base.
Hypothesis poll_idle_ok : forall d,
  exists st, fst (poll_until_idle base d) = inr st /\ status st = STATUS_OK base.

Lemma dfuseCommand_returns (command x : Z) (w : world D) :
  0 <= command < 256 ->
  exists w', dfuseCommand base command (Num x) 4 w = (Ok tt, w') /\
             trace w' = trace w ++ [commandWrite command x; DevPollUntil NotDnBusy].
Proof.
  intros Hc. rewrite (dfuseCommand_run base command x w Hc).
  destruct (write_returns (command :: le32 (x mod 2 ^ 32)) 0 (device w)) as [n Hn].
  destruct (write base _ 0 (device w)) as [r d]. cbn [fst] in Hn. subst r.
  destruct (poll_ok NotDnBusy d) as [st [Hp Hs]].
  destruct (poll_until base NotDnBusy d) as [r d']. cbn [fst] in Hp. subst r.
  rewrite Hs, Z.eqb_refl. eexists. split; reflexivity.
Qed.

Lemma writeIter_run (xfer_size : Z) (data : list Z) (expected_size : Z)
    (bytes_sent address : Z) (w : world D) :
  let size := Z.min (expected_size - bytes_sent) xfer_size in
  let sent := slice data bytes_sent (bytes_sent + size) in
  exists n d w',
    fst (write base sent 2 d) = inr n /\
    writeIter base xfer_size data expected_size bytes_sent address w
    = (Ok (bytes_sent + n, address + size), w') /\
    trace w' = trace w ++ [commandWrite SET_ADDRESS address; DevPollUntil NotDnBusy;
                           DevWrite sent 2; DevPollUntilIdle;
                           LogProgress (bytes_sent + n) expected_size].
Proof.
  intros size sent.
  destruct (dfuseCommand_returns SET_ADDRESS address w) as [w1 [E1 T1]];
    [unfold SET_ADDRESS; lia|].
  destruct (write_returns sent 2 (device w1)) as [n Hn].
  destruct (write base sent 2 (device w1)) as [r d2] eqn:E2.
  cbn [fst] in Hn. subst r.
  destruct (poll_idle_ok d2) as [st [Hp Hs]].
  destruct (poll_until_idle base d2) as [r d3] eqn:E3. cbn [fst] in Hp. subst r.
  exists n, (device w1). eexists. split; [now rewrite E2|].
  unfold writeIter, bind, tryCatch, ret, throw, logProgress, emit.
  fold size. fold sent. rewrite E1. cbv beta iota.
  rewrite (baseWrite_eq base sent 2 w1 _ _ E2). cbn [ofSum].
  rewrite (basePollUntilIdle_eq base
             (mkWorld d2 (trace w1 ++ [DevWrite sent 2])) _ _ E3).
  cbn [ofSum device trace].
  rewrite Hs, Z.eqb_refl. split; [reflexivity|]. cbn [trace].
  rewrite T1, <- !app_assoc. reflexivity.
Qed.


(** Two turns of the transfer loop (lines 174-194) on a device that
    reports [n] bytes written for the first chunk: the byte counter
    advances by [n] and the address by the size of the chunk, so the second
    turn sets the address [address + size] and then sends the image from
    byte [bytes_sent + n] on.  After a short write ([n < size]) the bytes
    no longer go to the addresses they belong to. *)
Theorem writeIter_cursors (xfer_size : Z) (data : list Z) (expected_size : Z)
    (bytes_sent address : Z) (w : world D) :
  let size := Z.min (expected_size - bytes_sent) xfer_size in
  exists n d w1 st2 w2,
    fst (write base (slice data bytes_sent (bytes_sent + size)) 2 d) = inr n /\
    writeIter base xfer_size data expected_size bytes_sent address w
    = (Ok (bytes_sent + n, address + size), w1) /\
    writeIter base xfer_size data expected_size (bytes_sent + n) (address + size) w1
    = (Ok st2, w2) /\
    deviceWrites (trace w2)
    = deviceWrites (trace w)
      ++ [commandWrite SET_ADDRESS address;
          DevWrite (slice data bytes_sent (bytes_sent + size)) 2;
          commandWrite SET_ADDRESS (address + size);
          DevWrite (slice data (bytes_sent + n)
                      (bytes_sent + n
                       + Z.min (expected_size - (bytes_sent + n)) xfer_size)) 2].
Proof.
  intros size.
  destruct (writeIter_run xfer_size data expected_size bytes_sent address w)
    as [n [d [w1 [Hn [E1 T1]]]]].
  destruct (writeIter_run xfer_size data expected_size (bytes_sent + n)
              (address + size) w1)
    as [n2 [d2 [w2 [_ [E2 T2]]]]].
  exists n, d, w1. eexists. exists w2.
  split; [exact Hn|]. split; [exact E1|]. split; [exact E2|].
  rewrite T2, T1, !deviceWrites_app. cbn. rewrite <- app_assoc.
  reflexivity.
Qed.

End CountingDevice.

Section StuckDevice.

Context {D : Type}.
Variable base : Transport D.
(** The device accepts the commands but reports no byte of a transfer as
    written. *)
Hypothesis write_nothing : forall payload blockIndex d,
  fst (write base payload blockIndex d) = inr 0.
Hypothesis poll_ok : forall p d,
  exists st, fst (poll_until base p d) = inr st /\ status st = STATUS_OK base.
Hypothesis poll_idle_ok : forall d,
  exists st, fst (poll_until_idle base d) = inr st /\ status st = STATUS_OK base.

(** The transfer loop has no bound of its own (line 173): on a device
    that reports 0 bytes written and status OK, it never ends, for any
    non-empty image. *)
Theorem writeLoop_never_ends (xfer_size : Z) (data : list Z) (fuel : nat)
    (address : Z) (w : world D) :
  data <> [] ->
  fst (writeLoop base fuel xfer_size data (Z.of_nat (length data)) 0 address w)
  = Diverge.
Proof.
  intros Hdata.
  assert (HN : 0 < Z.of_nat (length data)) by (destruct data; [contradiction|simpl; lia]).
  revert address w. induction fuel as [|fuel IH]; intros address w;
    cbn [writeLoop]; destruct (Z.ltb_spec 0 (Z.of_nat (length data))); try lia;
    [reflexivity|].
  destruct (writeIter_run base
              (fun p i d => ex_intro _ 0 (write_nothing p i d)) poll_ok poll_idle_ok
              xfer_size data (Z.of_nat (length data)) 0 address w)
    as [n [d [w' [Hn [E _]]]]].
  rewrite write_nothing in Hn. injection Hn as <-.
  rewrite (bind_Ok _ _ _ _ _ E). cbn [fst snd]. apply IH.
Qed.

End StuckDevice.

Lemma writeIter_cursors_witness :
  exists n d w1 st2 w2,
    fst (write shortTransport (slice [1; 2; 3; 4; 5] 0 (0 + Z.min (5 - 0) 2)) 2 d)
    = inr n /\
    writeIter shortTransport 2 [1; 2; 3; 4; 5] 5 0 0x2000 emptyWorld
    = (Ok (0 + n, 0x2000 + Z.min (5 - 0) 2), w1) /\
    writeIter shortTransport 2 [1; 2; 3; 4; 5] 5 (0 + n)
      (0x2000 + Z.min (5 - 0) 2) w1 = (Ok st2, w2) /\
    deviceWrites (trace w2)
    = deviceWrites (trace emptyWorld)
      ++ [commandWrite SET_ADDRESS 0x2000;
          DevWrite (slice [1; 2; 3; 4; 5] 0 (0 + Z.min (5 - 0) 2)) 2;
          commandWrite SET_ADDRESS (0x2000 + Z.min (5 - 0) 2);
          DevWrite (slice [1; 2; 3; 4; 5] (0 + n)
                      (0 + n + Z.min (5 - (0 + n)) 2)) 2].
Proof.
  apply (writeIter_cursors shortTransport).
  - intros payload blockIndex d. eexists. reflexivity.
  - intros p d. exists okStatus. split; reflexivity.
  - intros d. exists okStatus. split; reflexivity.
Defined.

Lemma writeLoop_never_ends_witness :
  fst (writeLoop zeroTransport 50 2 [1; 2; 3] (Z.of_nat (length [1; 2; 3])) 0
         0x2000 emptyWorld) = Diverge.
Proof.
  apply (writeLoop_never_ends zeroTransport).
  - intros payload blockIndex d. reflexivity.
  - intros p d. exists okStatus. split; reflexivity.
  - intros d. exists okStatus. split; reflexivity.
  - discriminate.
Defined.

Section FailingStatus.

Context {D : Type}.
Variable base : Transport D.
Hypothesis write_returns : forall payload blockIndex d,
  exists n, fst (write base payload blockIndex d) = inr n.
Hypothesis poll_ok : forall p d,
  exists st, fst (poll_until base p d) = inr st /\ status st = STATUS_OK base.
(** The poll after a transfer reports a status that is not OK. *)
Hypothesis poll_idle_fails : forall d,
  exists st, fst (poll_until_idle base d) = inr st /\ status st <> STATUS_OK base.


End FailingStatus.

Section DeadDevice.

Context {D : Type}.
Variable base : Transport D.
(** Every [write] throws. *)
Hypothesis write_throws : forall payload blockIndex d,
  exists e, fst (write base payload blockIndex d) = inl e.


End DeadDevice.

Section ResettingDevice.

Context {D : Type}.
Variable base : Transport D.
Hypothesis write_returns : forall payload blockIndex d,
  exists n, fst (write base payload blockIndex d) = inr n.
Hypothesis poll_busy_ok : forall d,
  exists st, fst (poll_until base NotDnBusy d) = inr st /\
             status st = STATUS_OK base.
(** The device does not answer the poll for the manifest state. *)
Hypothesis poll_manifest_throws : forall d,
  exists e, fst (poll_until base IsManifest d) = inl e.


End ResettingDevice.




(** ** The read pipeline *)


Section ReadingDevice.

Context {D : Type}.
Variable base : Transport D.
Variable reader : ReadTransport D.
(** Every call to the base class returns, the polls with status OK. *)
Hypothesis write_returns : forall payload blockIndex d,
  exists n, fst (write base payload blockIndex d) = inr n.
Hypothesis poll_ok : forall p d,
  exists st, fst (poll_until base p d) = inr st /\ status st = STATUS_OK base.
Hypothesis state_returns : forall d, exists st, fst (getState reader d) = inr st.
Hypothesis abort_returns : forall d, fst (abortToIdle reader d) = inr tt.
Hypothesis read_returns : forall xfer_size max_size first d,
  exists bytes, fst (baseRead reader xfer_size max_size first d) = inr bytes.




End ReadingDevice.

(** The errors of [do_read] before any call (lines 214-223): without a
    memory map it throws "Unknown a DfuSe memory info"; with the override
    unset and an empty map, or a first segment at address 0, it throws
    "Unknown memory segments"; in both cases nothing is logged and the
    device is not touched. *)
Theorem do_read_errors {D : Type} (base : Transport D)
    (reader : ReadTransport D) (segments : list DFUseMemorySegment)
    (startAddress : option Z) (xfer_size : Z) (max_size : option Z)
    (w : readWorld D) :
  do_read base reader None startAddress xfer_size max_size w
  = (ReadThrow UnknownMemoryInfo, w) /\
  (segments = [] \/ (exists s rest, segments = s :: rest /\ start s = 0) ->
   do_read base reader (Some segments) None xfer_size max_size w
   = (ReadThrow UnknownMemorySegments, w)).
Proof.
  split; [reflexivity|].
  intros [->|[s [rest [-> Hs]]]]; unfold do_read, resolveReadAddress, rbind, rthrow.
  - reflexivity.
  - rewrite Hs. reflexivity.
Qed.

Lemma do_read_errors_witness :
  do_read okTransport sampleReader (Some oddMap) None 64 None emptyReadWorld
  = (ReadThrow UnknownMemorySegments, emptyReadWorld).
Proof.
  apply (proj2 (do_read_errors okTransport sampleReader oddMap None 64 None
                  emptyReadWorld)).
  right. exists (mkSegment 0 10 4 true true true),
                [mkSegment 10 20 4 true true true]. now split.
Defined.


(** ** Further properties, continued *)

(** [getSegment] on any map, sorted or not, overlapping or not (lines
    34-46): a segment it returns is a segment of the map that contains the
    address, and no segment before it in the map does; it returns [null]
    exactly when no segment of the map contains the address. *)
Theorem getSegment_first_match (segments : list DFUseMemorySegment) (a : Z) :
  (forall s,
      getSegment (Some segments) a = Ok (Some s) <->
      exists before after,
        segments = before ++ s :: after /\ inside s a /\
        forall t, In t before -> ~ inside t a) /\
  (getSegment (Some segments) a = Ok None <->
   forall t, In t segments -> ~ inside t a).
Proof.
  cbn [getSegment]. split.
  - intros s. split.
    + intros [= H]. induction segments as [|u l IH]; [discriminate|].
      cbn [findSegment] in H. destruct (contains u a) eqn:Eu.
      * injection H as <-. exists [], l.
        split; [reflexivity|]. split; [now apply contains_inside|intros t []].
      * destruct (IH H) as [before [after [-> [Hs Hb]]]].
        exists (u :: before), after. split; [reflexivity|]. split; [assumption|].
        intros t [<-|Ht]; [now apply contains_outside|now apply Hb].
    + intros [before [after [-> [Hs Hb]]]]. f_equal.
      induction before as [|u l IH]; cbn [findSegment app].
      * apply contains_inside in Hs. now rewrite Hs.
      * rewrite (proj2 (contains_outside u a)) by (apply Hb; now left).
        apply IH. intros t Ht. apply Hb. now right.
  - split.
    + intros [= H]. now apply findSegment_None.
    + intros H. f_equal. now apply findSegment_None.
Qed.

Section AcceptingDevice.

Context {D : Type}.
Variable base : Transport D.
Hypothesis write_all : forall payload blockIndex d,
  fst (write base payload blockIndex d) = inr (Z.of_nat (length payload)).
Hypothesis poll_ok : forall p d,
  exists st, fst (poll_until base p d) = inr st /\ status st = STATUS_OK base.
Hypothesis poll_idle_ok : forall d,
  exists st, fst (poll_until_idle base d) = inr st /\ status st = STATUS_OK base.

(** A transfer size of 0 (line 175): every chunk is empty, the byte
    counter never moves, and the transfer loop never ends, even on a device
    that accepts everything. *)
Theorem writeLoop_zero_chunk (data : list Z) (fuel : nat) (address : Z)
    (w : world D) :
  data <> [] ->
  fst (writeLoop base fuel 0 data (Z.of_nat (length data)) 0 address w) = Diverge.
Proof.
  intros Hdata.
  assert (HN : 0 < Z.of_nat (length data))
    by (destruct data; [contradiction|simpl; lia]).
  assert (Hsent : slice data 0 (0 + Z.min (Z.of_nat (length data) - 0) 0) = []).
  { rewrite Z.min_r by lia. unfold slice, clampIndex. cbn [Z.add Z.ltb Z.compare].
    rewrite Z.min_l by lia. reflexivity. }
  revert address w. induction fuel as [|fuel IH]; intros address w;
    cbn [writeLoop]; destruct (Z.ltb_spec 0 (Z.of_nat (length data))); try lia;
    [reflexivity|].
  destruct (writeIter_run base
              (fun p i d => ex_intro _ _ (write_all p i d)) poll_ok poll_idle_ok
              0 data (Z.of_nat (length data)) 0 address w)
    as [n [d [w' [Hn [E _]]]]].
  rewrite Hsent, write_all in Hn. injection Hn as <-.
  rewrite (bind_Ok _ _ _ _ _ E). cbn [fst snd length Z.of_nat Z.add]. apply IH.
Qed.

End AcceptingDevice.

Lemma writeLoop_zero_chunk_witness :
  fst (writeLoop okTransport 50 0 [1; 2; 3] (Z.of_nat (length [1; 2; 3])) 0
         0x2000 emptyWorld) = Diverge.
Proof.
  apply (writeLoop_zero_chunk okTransport okTransport_write_all
           okTransport_poll_ok okTransport_poll_idle_ok).
  discriminate.
Defined.

Section WholeWrite.

Context {D : Type}.
Variable base : Transport D.
Hypothesis write_all : forall payload blockIndex d,
  fst (write base payload blockIndex d) = inr (Z.of_nat (length payload)).
Hypothesis poll_ok : forall p d,
  exists st, fst (poll_until base p d) = inr st /\ status st = STATUS_OK base.
Hypothesis poll_idle_ok : forall d,
  exists st, fst (poll_until_idle base d) = inr st /\ status st = STATUS_OK base.

Variable segments : list DFUseMemorySegment.
Hypothesis Hno : nonOverlapping segments.
Hypothesis Hne : nonEmpty segments.
Hypothesis Hdiv : sectorsDivide segments.

Lemma erase_accepted (startAddr len addr0 endAddr : Z) (fuel : nat)
    (w : world D) :
  1 <= len -> covered segments startAddr (startAddr + len) ->
  getSectorStart (Some segments) startAddr Undefined = Ok (Num addr0) ->
  getSectorEnd (Some segments) (startAddr + len - 1) Undefined = Ok (Num endAddr) ->
  (Z.to_nat (endAddr - addr0) <= fuel)%nat ->
  exists w',
    erase base (Some segments) fuel startAddr len w = (Ok tt, w') /\
    deviceWrites (trace w')
    = deviceWrites (trace w)
      ++ map (commandWrite ERASE_SECTOR) (erasableSectors segments addr0 endAddr).
Proof.
  intros Hlen Hcov Hstart Hend Hfuel.
  assert (Hmin : forall s, In s segments -> 1 <= sectorSize s).
  { intros s Hs. destruct (segment_facts segments Hne Hdiv s Hs) as [_ [Hp _]].
    lia. }
  destruct (erase_run base segments startAddr len addr0 endAddr 1 fuel w
              Hno Hne Hdiv Hlen Hcov Hstart Hend ltac:(lia) Hmin)
    as [r [w' [E Hr]]]; [now rewrite Z.div_1_r|].
  destruct r as [[]|e|]; [|exfalso|contradiction].
  - exists w'. split; [exact E|]. apply Hr.
  - destruct Hr as [x [w0 Hthrow]].
    destruct (dfuseCommand_ok base write_all poll_ok ERASE_SECTOR x w0)
      as [w1 [Hok _]]; [unfold ERASE_SECTOR; lia|].
    rewrite Hok in Hthrow. discriminate.
Qed.

(** [erase] leaves no requested byte out (lines 111-146): on a
    well-formed map and a covered range, on a device that accepts every
    command, for every byte of [startAddr, startAddr + length) that lies in
    an erasable segment, the ERASE_SECTOR command for the sector of that
    byte has been sent when [erase] returns. *)
Theorem erase_covers_range (startAddr len addr0 endAddr : Z) (fuel : nat)
    (w : world D) :
  1 <= len -> covered segments startAddr (startAddr + len) ->
  getSectorStart (Some segments) startAddr Undefined = Ok (Num addr0) ->
  getSectorEnd (Some segments) (startAddr + len - 1) Undefined = Ok (Num endAddr) ->
  (Z.to_nat (endAddr - addr0) <= fuel)%nat ->
  exists w',
    erase base (Some segments) fuel startAddr len w = (Ok tt, w') /\
    forall x s y,
      startAddr <= x < startAddr + len ->
      In s segments -> inside s x -> erasable s = true ->
      getSectorStart (Some segments) x (Segment s) = Ok (Num y) ->
      In (commandWrite ERASE_SECTOR y) (deviceWrites (trace w')).
Proof.
  intros Hlen Hcov Hstart Hend Hfuel.
  destruct (erase_accepted startAddr len addr0 endAddr fuel w
              Hlen Hcov Hstart Hend Hfuel) as [w' [E Hw]].
  exists w'. split; [exact E|].
  intros x s y Hx Hs Hin He Hy.
  destruct (erase_range segments startAddr len addr0 endAddr
              Hno Hne Hdiv Hlen Hcov Hstart Hend)
    as [s0 [E0 [[Hs0 [Hr0 [Hal0 _]]] [Hlo [Hhi _]]]]].
  destruct (segment_facts segments Hne Hdiv s Hs) as [Hs1 [Hp _]].
  destruct (segment_facts segments Hne Hdiv s0 Hs0) as [Hs01 [Hp0 _]].
  destruct (sectorStartOf_bounds s x Hp) as [y' [Hy' [Hb _]]].
  cbn [getSectorStart] in Hy. rewrite Hy' in Hy. injection Hy as <-.
  assert (Hform : y' = start s + (x - start s) / sectorSize s * sectorSize s).
  { unfold sectorStartOf, sectorIndex in Hy'.
    destruct (Z.eqb_spec (sectorSize s) 0); [lia|]. now injection Hy' as <-. }
  unfold inside in Hin.
  assert (Hge : 0 <= (x - start s) / sectorSize s) by (apply Z.div_pos; lia).
  assert (Hys : start s <= y') by nia.
  rewrite Hw. apply in_or_app. right. apply in_map.
  unfold erasableSectors. apply filter_In. split.
  - assert (Hy0 : addr0 <= y').
    { destruct (segment_eq_dec s0 s) as [<-|Hneq].
      - destruct (aligned_multiple _ _ Hp0 Hal0) as [q Hq].
        assert (Hq' : (addr0 - start s0) / sectorSize s0 = q)
          by (rewrite Hq; apply Z.div_mul; lia).
        assert ((addr0 - start s0) / sectorSize s0
                <= (x - start s0) / sectorSize s0)
          by (apply Z.div_le_mono; lia).
        nia.
      - pose proof (segments_ordered segments Hno Hne Hdiv s0 s Hs0 Hs Hneq).
        apply findSegment_Some in E0. destruct E0 as [_ Hi0].
        unfold inside in Hi0. lia. }
    unfold addresses. apply in_map_iff. exists (Z.to_nat (y' - addr0)).
    split; [lia|]. apply in_seq. lia.
  - unfold isErasableSector.
    rewrite (findSegment_unique segments y' s Hno Hs) by (unfold inside; lia).
    rewrite He. cbn [andb]. apply Z.eqb_eq.
    replace (y' - start s) with ((x - start s) / sectorSize s * sectorSize s)
      by lia.
    apply Z.mod_mul. lia.
Qed.

(** [do_write] as a whole (lines 148-211), with the override at an address
    of a well-formed map that holds the image: the erase phase returns, and
    what is sent is the erase commands, the transfers and the
    manifestation, in this order. *)
Lemma do_write_whole (a C : Z) (data : list Z) (addr0 endAddr : Z)
    (fuel : nat) (w : world D) :
  let N := Z.of_nat (length data) in
  1 <= N -> 0 < C -> covered segments a (a + N) ->
  getSectorStart (Some segments) a Undefined = Ok (Num addr0) ->
  getSectorEnd (Some segments) (a + N - 1) Undefined = Ok (Num endAddr) ->
  (Z.to_nat (endAddr - addr0) <= fuel)%nat -> (chunkCount N C <= fuel)%nat ->
  exists w',
    do_write base (Some segments) (Some a) fuel C data w = (Ok tt, w') /\
    deviceWrites (trace w')
    = deviceWrites (trace w)
      ++ map (commandWrite ERASE_SECTOR) (erasableSectors segments addr0 endAddr)
      ++ flat_map (transferPair a C data) (seq 0 (chunkCount N C))
      ++ [commandWrite SET_ADDRESS a; DevWrite [] 0].
Proof.
  intros N HN HC Hcov Hstart Hend Hfuel1 Hfuel2.
  destruct (erase_range segments a N addr0 endAddr
              Hno Hne Hdiv HN Hcov Hstart Hend) as [s0 [E0 _]].
  pose (w0 := mkWorld (device w) (trace w ++ [LogInfo ErasingMemory])).
  destruct (erase_accepted a N addr0 endAddr fuel w0 HN Hcov Hstart Hend Hfuel1)
    as [w1 [E1 T1]].
  destruct (chunkCount_bounds N C ltac:(lia) HC) as [Hn1 Hn].
  pose (w1' := mkWorld (device w1) (trace w1 ++ [LogInfo CopyingData])).
  destruct (writeLoop_run base write_all poll_ok poll_idle_ok C data a HC
              (chunkCount N C) 0 fuel w1')
    as [w2 [st [E2 [F2 T2]]]]; [lia|exact Hn|].
  cbn [Z.of_nat Z.mul] in E2. rewrite Z.add_0_r in E2.
  pose (w2' := mkWorld (device w2) (trace w2 ++ [LogInfo (WroteBytes (fst st))])).
  destruct (manifest_ok base write_all poll_ok a w2') as [w3 [E3 T3]].
  exists w3. split.
  - unfold do_write, resolveStartAddress, writeFrom.
    unfold bind at 1, emit at 1. fold w0.
    unfold bind at 1. unfold bind at 1, lift. cbn [getSegment]. rewrite E0.
    unfold ret at 1. fold N.
    rewrite (bind_Ok _ _ _ _ _ E1).
    unfold bind at 1, emit at 1. fold w1'.
    rewrite (bind_Ok _ _ _ _ _ E2).
    unfold bind at 1, emit at 1. fold w2'. exact E3.
  - rewrite T3. unfold w2'. cbn [trace]. rewrite deviceWrites_app.
    cbn [deviceWrites filter isDevWrite]. rewrite app_nil_r, T2.
    unfold w1'. cbn [trace]. rewrite deviceWrites_app.
    cbn [deviceWrites filter isDevWrite]. rewrite app_nil_r, T1.
    unfold w0. cbn [trace]. rewrite deviceWrites_app.
    cbn [deviceWrites filter isDevWrite]. rewrite app_nil_r.
    now rewrite <- !app_assoc.
Qed.

End WholeWrite.

Lemma erase_covers_range_witness :
  In (commandWrite ERASE_SECTOR 0x2000)
     (deviceWrites
        (trace (snd (erase okTransport (Some sampleMap) 3072 0x1c10 0x900
                       emptyWorld)))).
Proof.
  destruct (erase_covers_range okTransport okTransport_write_all
              okTransport_poll_ok sampleMap sampleMap_nonOverlapping
              sampleMap_nonEmpty sampleMap_sectorsDivide
              0x1c10 0x900 0x1c00 0x2800 3072 emptyWorld)
    as [w' [E H]].
  - lia.
  - apply sampleMap_covered; lia.
  - reflexivity.
  - reflexivity.
  - vm_compute. lia.
  - rewrite E. cbn [snd].
    apply (H 0x2010 flashSegment 0x2000).
    + lia.
    + right. now left.
    + unfold inside. simpl. lia.
    + reflexivity.
    + reflexivity.
Defined.

(** ** The write pipeline as a whole *)

(** C1 (amended): for an image of [N > 0] bytes and a chunk size [C > 0],
    on a device whose [write] reports every byte as written and whose polls
    report status OK, whenever the start-address resolution and the erase
    phase of [do_write] return, with effective start address [a],
    [do_write] completes and sends, after the erase traffic, exactly
    [ceil(N/C)] pairs of a SET_ADDRESS command with parameter [a + i*C] and
    a transfer of bytes [i*C, min((i+1)*C, N)) at block index 2, for
    [i = 0, 1, ...], then one SET_ADDRESS command with parameter [a] and one
    zero-length [write] at block index 0, and nothing else.  The erase phase
    does return when the override is an address [a] of a map whose segments
    do not overlap, are not empty and have a positive [sectorSize] that
    divides their length, and every byte of [a, a + N) lies in a segment;
    the erase traffic is then one ERASE_SECTOR for each erasable sector of
    the span. *)
Theorem do_write_transfers {D : Type} (base : Transport D)
    (segments : list DFUseMemorySegment) (startAddress : option Z)
    (fuel : nat) (C : Z) (data : list Z) (w : world D) :
  let N := Z.of_nat (length data) in
  (forall payload blockIndex d,
      fst (write base payload blockIndex d) = inr (Z.of_nat (length payload))) ->
  (forall p d, exists st,
      fst (poll_until base p d) = inr st /\ status st = STATUS_OK base) ->
  (forall d, exists st,
      fst (poll_until_idle base d) = inr st /\ status st = STATUS_OK base) ->
  0 < N -> 0 < C -> (chunkCount N C <= fuel)%nat ->
  (forall a w1,
      (emit (LogInfo ErasingMemory) ;;;
       a <- resolveStartAddress (Some segments) startAddress segments ;;
       erase base (Some segments) fuel a N ;;; ret a) w = (Ok a, w1) ->
      exists w2,
        do_write base (Some segments) startAddress fuel C data w = (Ok tt, w2) /\
        deviceWrites (trace w2)
        = deviceWrites (trace w1)
          ++ flat_map (transferPair a C data) (seq 0 (chunkCount N C))
          ++ [commandWrite SET_ADDRESS a; DevWrite [] 0]) /\
  (forall a addr0 endAddr,
      startAddress = Some a ->
      nonOverlapping segments -> nonEmpty segments -> sectorsDivide segments ->
      covered segments a (a + N) ->
      getSectorStart (Some segments) a Undefined = Ok (Num addr0) ->
      getSectorEnd (Some segments) (a + N - 1) Undefined = Ok (Num endAddr) ->
      (Z.to_nat (endAddr - addr0) <= fuel)%nat ->
      exists w1 w2,
        (emit (LogInfo ErasingMemory) ;;;
         a <- resolveStartAddress (Some segments) startAddress segments ;;
         erase base (Some segments) fuel a N ;;; ret a) w = (Ok a, w1) /\
        do_write base (Some segments) startAddress fuel C data w = (Ok tt, w2) /\
        deviceWrites (trace w2)
        = deviceWrites (trace w)
          ++ map (commandWrite ERASE_SECTOR)
               (erasableSectors segments addr0 endAddr)
          ++ flat_map (transferPair a C data) (seq 0 (chunkCount N C))
          ++ [commandWrite SET_ADDRESS a; DevWrite [] 0]).
Proof.
  intros N Hwrite Hpoll Hidle HN HC Hfuel. split.
  - intros a w1 Hpre.
    exact (do_write_after_erase base Hwrite Hpoll Hidle segments startAddress
             fuel C data a w w1 HN HC Hfuel Hpre).
  - intros a addr0 endAddr -> Hno Hne Hdiv Hcov Hstart Hend Hfuel'.
    destruct (do_write_whole base Hwrite Hpoll Hidle segments Hno Hne Hdiv
                a C data addr0 endAddr fuel w ltac:(fold N; lia) HC Hcov
                Hstart Hend Hfuel' Hfuel) as [w2 [E2 T2]].
    destruct (erase_range segments a N addr0 endAddr
                Hno Hne Hdiv ltac:(lia) Hcov Hstart Hend) as [s0 [E0 _]].
    destruct (erase_accepted base Hwrite Hpoll segments Hno Hne Hdiv
                a N addr0 endAddr fuel
                (mkWorld (device w) (trace w ++ [LogInfo ErasingMemory]))
                ltac:(lia) Hcov Hstart Hend Hfuel') as [w1 [E1 _]].
    exists w1, w2. split; [|split; [exact E2|exact T2]].
    unfold resolveStartAddress.
    unfold bind at 1, emit at 1. unfold bind at 1.
    unfold bind at 1, lift. cbn [getSegment]. rewrite E0. unfold ret at 1.
    now rewrite (bind_Ok _ _ _ _ _ E1).
Qed.

Lemma do_write_transfers_witness :
  (exists w2,
      do_write okTransport (Some sampleMap) (Some 0x2000) 2048 2 [1; 2; 3; 4; 5]
        emptyWorld = (Ok tt, w2) /\
      deviceWrites (trace w2)
      = deviceWrites
          [LogInfo ErasingMemory; LogProgress 0 0x800;
           commandWrite ERASE_SECTOR 0x2000;
           DevPollUntil NotDnBusy; LogProgress 0x800 0x800]
        ++ flat_map (transferPair 0x2000 2 [1; 2; 3; 4; 5]) (seq 0 3)
        ++ [commandWrite SET_ADDRESS 0x2000; DevWrite [] 0]) /\
  (exists w1 w2,
      (emit (LogInfo ErasingMemory) ;;;
       a <- resolveStartAddress (Some sampleMap) (Some 0x2000) sampleMap ;;
       erase okTransport (Some sampleMap) 2048 a 5 ;;; ret a) emptyWorld
      = (Ok 0x2000, w1) /\
      do_write okTransport (Some sampleMap) (Some 0x2000) 2048 2 [1; 2; 3; 4; 5]
        emptyWorld = (Ok tt, w2) /\
      deviceWrites (trace w2)
      = deviceWrites (trace emptyWorld)
        ++ map (commandWrite ERASE_SECTOR) (erasableSectors sampleMap 0x2000 0x2800)
        ++ flat_map (transferPair 0x2000 2 [1; 2; 3; 4; 5]) (seq 0 3)
        ++ [commandWrite SET_ADDRESS 0x2000; DevWrite [] 0]).
Proof.
  assert (H5 : 0 < Z.of_nat (length [1; 2; 3; 4; 5])) by (simpl; lia).
  assert (Hf : (chunkCount (Z.of_nat (length [1; 2; 3; 4; 5])) 2 <= 2048)%nat)
    by (vm_compute; lia).
  pose proof (do_write_transfers okTransport sampleMap (Some 0x2000) 2048 2
                [1; 2; 3; 4; 5] emptyWorld okTransport_write_all
                okTransport_poll_ok okTransport_poll_idle_ok H5 ltac:(lia) Hf)
    as [Hcond Hwhole].
  split.
  - apply (Hcond 0x2000
             (mkWorld tt [LogInfo ErasingMemory; LogProgress 0 0x800;
                          commandWrite ERASE_SECTOR 0x2000;
                          DevPollUntil NotDnBusy; LogProgress 0x800 0x800])).
    vm_compute. reflexivity.
  - apply (Hwhole 0x2000 0x2000 0x2800 eq_refl sampleMap_nonOverlapping
             sampleMap_nonEmpty sampleMap_sectorsDivide).
    + apply sampleMap_covered; simpl; lia.
    + reflexivity.
    + reflexivity.
    + vm_compute. lia.
Defined.

(** C1, as stated, fails when the erase phase does not return: with the
    override two bytes before the end of [sampleMap] and an image of three
    bytes, [erase] throws for the last byte, and [do_write] sends no
    SET_ADDRESS and no transfer at all, although [ceil(3/2) = 2]. *)
Lemma do_write_transfers_counterexample :
  (forall fuel,
      do_write okTransport (Some sampleMap) (Some 0x3ffe) fuel 2 [1; 2; 3]
        emptyWorld
      = (Throw (AddressOutsideMemoryMap 0x4000),
         mkWorld tt [LogInfo ErasingMemory])) /\
  chunkCount (Z.of_nat (length [1; 2; 3])) 2 = 2%nat /\
  ~ (exists w2,
        do_write okTransport (Some sampleMap) (Some 0x3ffe) 8 2 [1; 2; 3]
          emptyWorld = (Ok tt, w2)).
Proof.
  split; [intros fuel; reflexivity|]. split; [reflexivity|].
  intros [w2 H]. discriminate H.
Qed.

(** C9, as stated, fails: for a start address outside the map the error is
    the address-outside-of-memory-map error, not the unknown-segment
    error. *)
Lemma erase_unknown_segment_counterexample :
  erase okTransport (Some sampleMap) 8 0x10 4 emptyWorld
  = (Throw (AddressOutsideMemoryMap 0x10), emptyWorld) /\
  fst (erase okTransport (Some sampleMap) 8 0x10 4 emptyWorld)
  <> Throw UnknownSegment.
Proof. split; [reflexivity|discriminate]. Qed.
